(** * csv_to_db: column type inference

    A shallow embedding of the type-inference core of [csv_to_db.py]
    ([match_type], [guess_sql_type], [predict_column_types]) together with
    the properties stated about it.

    Conventions of the embedding.
    - A Python [str] is a [string]; each character stands for one code
      point below 256.  On that range the class [\d] of Python's [re]
      (Unicode decimal digits) is exactly ['0'..'9'].
    - Python's [None] is [None]; a returned SQL type is [Some] of the very
      string the source returns.
    - The row iterator handed to [predict_column_types] is a forward-only
      stream: the rows not yet delivered, plus a log of those delivered.
    - [extract_file_name] and [csv_to_db] are embedded as well.  What
      [csv_to_db] does to the world outside is kept as a history of
      calls; the database answers through an oracle, so that statements
      about [csv_to_db] hold for every behaviour of the database. *)

From Stdlib Require Import Ascii String DecimalString.
From stdpp Require Import base list strings.

Local Open Scope nat_scope.

(** ** Strings *)

(** [len(field)] *)
Abbreviation len := String.length.

(** ** The fragment of [re] used by the pattern table *)

Module Re.

(** A character set: [\d], or a bracket expression listing its members. *)
Inductive charset :=
  | Digit
  | OneOf (members : list ascii).

Definition is_digit (a : ascii) : bool :=
  (48 <=? nat_of_ascii a) && (nat_of_ascii a <=? 57).

Definition in_charset (c : charset) (a : ascii) : bool :=
  match c with
  | Digit => is_digit a
  | OneOf members => bool_decide (a ∈ members)
  end.

(** A set with its greedy quantifier: between [lo] and [hi] repetitions,
    [hi = None] standing for no upper bound. *)
Record piece := Piece { set : charset; lo : nat; hi : option nat }.

(** A pattern is a sequence of quantified sets. *)
Definition pattern := list piece.

(** [c], [c{n}], [c?], [c+] *)
Definition one (c : charset) : piece := Piece c 1 (Some 1).
Definition exactly (n : nat) (c : charset) : piece := Piece c n (Some n).
Definition opt (c : charset) : piece := Piece c 0 (Some 1).
Definition plus (c : charset) : piece := Piece c 1 None.

(** Reading a pattern from its text, for the syntax the table uses:
    [\d], bracket expressions of literal characters, and the quantifiers
    [?], [+] and [{n}].  Anything else is not read. *)
Inductive mode :=
  | Top (fresh : bool)
  | Escape
  | InSet (members : list ascii)
  | InCount (n : option nat).

Definition quantify (lo : nat) (hi : option nat) (fresh : bool)
    (read : list piece) : option (list piece) :=
  match fresh, read with
  | true, q :: read' => Some (Piece (set q) lo hi :: read')
  | _, _ => None
  end.

(** A [-] that is neither first nor last in a bracket expression would
    make a range. *)
Definition is_range (members : list ascii) : bool :=
  bool_decide (last members = Some "-"%char) && (2 <=? length members).

Fixpoint parse (m : mode) (read : list piece) (s : string) : option pattern :=
  match s with
  | EmptyString =>
      match m with
      | Top _ => Some (reverse read)
      | _ => None
      end
  | String a s' =>
      match m with
      | Top fresh =>
          if bool_decide (a = "\"%char) then parse Escape read s'
          else if bool_decide (a = "["%char) then parse (InSet []) read s'
          else if bool_decide (a = "{"%char) then
            if fresh then parse (InCount None) read s' else None
          else if bool_decide (a = "?"%char) then
            read' ← quantify 0 (Some 1) fresh read; parse (Top false) read' s'
          else if bool_decide (a = "+"%char) then
            read' ← quantify 1 None fresh read; parse (Top false) read' s'
          else None
      | Escape =>
          if bool_decide (a = "d"%char)
          then parse (Top true) (one Digit :: read) s'
          else None
      | InSet members =>
          if bool_decide (a = "]"%char) then
            match members with
            | [] => None
            | _ => parse (Top true) (one (OneOf members) :: read) s'
            end
          else if bool_decide (a = "\"%char) || bool_decide (a = "^"%char)
                  || is_range members
          then None
          else parse (InSet (members ++ [a])) read s'
      | InCount n =>
          if bool_decide (a = "}"%char) then
            n' ← n; read' ← quantify n' (Some n') true read;
            parse (Top false) read' s'
          else if is_digit a
          then parse (InCount (Some (10 * default 0 n + (nat_of_ascii a - 48))))
                     read s'
          else None
      end
  end.

(** [re.compile] *)
Definition compile (source : string) : option pattern :=
  parse (Top false) [] source.

Definition below (hi : option nat) (count : nat) : bool :=
  match hi with
  | Some h => count <? h
  | None => true
  end.

(** The backtracking matcher.  A greedy quantifier first takes as many
    characters as it can and then gives them back one at a time until
    the rest of the pattern ([tail]) matches.  The result is the number
    of characters consumed from [s]. *)
Fixpoint repeat_one (c : charset) (lo : nat) (hi : option nat)
    (tail : string → option nat) (count : nat) (s : string) : option nat :=
  let stop := if lo <=? count then tail s else None in
  match s with
  | String a s' =>
      if in_charset c a && below hi count then
        match repeat_one c lo hi tail (S count) s' with
        | Some n => Some (S n)
        | None => stop
        end
      else stop
  | EmptyString => stop
  end.

Fixpoint match_here (p : pattern) (s : string) : option nat :=
  match p with
  | [] => Some 0
  | q :: p' => repeat_one (set q) (lo q) (hi q) (match_here p') 0 s
  end.

(** The first [n] characters of [s]. *)
Fixpoint take_str (n : nat) (s : string) : string :=
  match n, s with
  | S n', String a s' => String a (take_str n' s')
  | _, _ => EmptyString
  end.

(** [re.match]: the text matched at the start of [s], if any. *)
Definition match_at (p : pattern) (s : string) : option string :=
  match match_here p s with
  | Some n => Some (take_str n s)
  | None => None
  end.

(** [re.findall] for a pattern without groups: the non-overlapping matches,
    scanning left to right.  [skip] counts the characters of the previous
    match still to be passed over.  After an empty match the scan moves on
    by one character; with greedy quantifiers only, an empty match at a
    position means that no other match starts there. *)
Fixpoint findall_from (p : pattern) (skip : nat) (s : string) : list string :=
  match skip with
  | S k =>
      match s with
      | String _ s' => findall_from p k s'
      | EmptyString => []
      end
  | 0 =>
      match match_at p s with
      | Some m =>
          m :: match s with
               | String _ s' => findall_from p (len m - 1) s'
               | EmptyString => []
               end
      | None =>
          match s with
          | String _ s' => findall_from p 0 s'
          | EmptyString => []
          end
      end
  end.

Definition findall (p : pattern) (s : string) : list string :=
  findall_from p 0 s.

(** The language of a pattern: what it means for a pattern to match an
    entire string, with no remainder. *)
Fixpoint all_in (c : charset) (s : string) : bool :=
  match s with
  | EmptyString => true
  | String a s' => in_charset c a && all_in c s'
  end.

Definition within (hi : option nat) (n : nat) : Prop :=
  match hi with
  | Some h => n ≤ h
  | None => True
  end.

Definition in_piece (q : piece) (s : string) : Prop :=
  all_in (set q) s = true ∧ lo q ≤ len s ∧ within (hi q) (len s).

Inductive full_match : pattern → string → Prop :=
  | full_match_nil : full_match [] ""
  | full_match_cons q p s1 s2 :
      in_piece q s1 → full_match p s2 → full_match (q :: p) (s1 +:+ s2).

(** Neighbouring pieces use disjoint sets and only the first piece may
    be empty: what a greedy quantifier takes is then forced. *)
Fixpoint separated (p : pattern) : Prop :=
  match p with
  | q1 :: p' =>
      match p' with
      | q2 :: _ =>
          1 ≤ lo q2
          ∧ (∀ a, in_charset (set q1) a = true → in_charset (set q2) a = false)
          ∧ separated p'
      | [] => True
      end
  | [] => True
  end.

(** What follows the characters taken by a piece: nothing, a character
    outside its set, or the piece is full. *)
Definition boundary (c : charset) (hi : option nat) (taken : nat)
    (s : string) : Prop :=
  match s with
  | EmptyString => True
  | String a _ => in_charset c a = false ∨ hi = Some taken
  end.

End Re.

(** ** The classifier *)

(** The type strings of the source and the tags they stand for. *)
Definition date : string := "date".
Definition decimal : string := "float(15)".
Definition text : string := "varchar(50)".

(** Python truthiness of a value that is [None] or a [str]. *)
Definition truthy (v : option string) : bool :=
  match v with
  | Some (String _ _) => true
  | _ => false
  end.

Definition match_type (pattern : Re.pattern) (type : string) (field : string)
    : option string :=
  let matches := Re.findall pattern field in
  if bool_decide (length matches = 1)
     && bool_decide (len <$> matches !! 0 = Some (len field))
  then Some type
  else None.

Definition separator : Re.charset := Re.OneOf ["."; "/"; "-"]%char.

Definition pattern_type_pairs : list (Re.pattern * string) :=
  [ (* \d{4}[./-]\d{2}[./-]\d{2} *)
    ([Re.exactly 4 Re.Digit; Re.one separator; Re.exactly 2 Re.Digit;
      Re.one separator; Re.exactly 2 Re.Digit], date);
    (* \d{2}[./-]\d{2}[./-]\d{4} *)
    ([Re.exactly 2 Re.Digit; Re.one separator; Re.exactly 2 Re.Digit;
      Re.one separator; Re.exactly 4 Re.Digit], date);
    (* \d{2}[./-]\d{2}[./-]\d{2} *)
    ([Re.exactly 2 Re.Digit; Re.one separator; Re.exactly 2 Re.Digit;
      Re.one separator; Re.exactly 2 Re.Digit], date);
    (* [-+]?\d+[.]\d+ *)
    ([Re.opt (Re.OneOf ["-"; "+"]%char); Re.plus Re.Digit;
      Re.one (Re.OneOf ["."]%char); Re.plus Re.Digit], decimal);
    (* [+-]?\d+ *)
    ([Re.opt (Re.OneOf ["+"; "-"]%char); Re.plus Re.Digit], decimal) ].

(** The patterns as the source writes them. *)
Definition pattern_sources : list string :=
  [ "\d{4}[./-]\d{2}[./-]\d{2}"; "\d{2}[./-]\d{2}[./-]\d{4}";
    "\d{2}[./-]\d{2}[./-]\d{2}"; "[-+]?\d+[.]\d+"; "[+-]?\d+" ].

(** The [for] loop over the table: the first pair whose [match_type] is
    truthy decides; falling off the end gives ["varchar(50)"]. *)
Fixpoint first_match (pairs : list (Re.pattern * string)) (field : string)
    : option string :=
  match pairs with
  | [] => Some text
  | (pattern, type) :: pairs' =>
      let type' := match_type pattern type field in
      if truthy type' then type' else first_match pairs' field
  end.

Definition guess_sql_type (field : string) : option string :=
  if len field =? 0 then None else first_match pattern_type_pairs field.

(** ** The column type resolver *)

Abbreviation row := (list string).

Inductive exn := StopIteration.

Inductive result (A : Type) :=
  | Return (a : A)
  | Raise (e : exn).
Arguments Return {A} a.
Arguments Raise {A} e.

(** The row iterator: rows still to come and rows already handed out. *)
Record iterator := Iterator { pending : list row; delivered : list row }.

Definition iter (rows : list row) : iterator := Iterator rows [].

(** [next(rows)] *)
Definition next (it : iterator) : result row * iterator :=
  match pending it with
  | [] => (Raise StopIteration, it)
  | r :: rest => (Return r, Iterator rest (delivered it ++ [r]))
  end.

(** The two variables the loops update. *)
Record state := State {
  types : list (option string);
  no_of_typed_columns : nat
}.

(** Lines 46-49: count the entries that are not [None]. *)
Definition count_typed (types : list (option string)) : nat :=
  foldl (λ n type, if bool_decide (type ≠ None) then n + 1 else n) 0 types.

(** Lines 55-57: the body of the inner loop at index [i]. *)
Definition visit (i : nat) (field : string) (column_type : option string)
    (st : state) : state :=
  if negb (len field =? 0) && bool_decide (column_type = None)
  then State (<[i := guess_sql_type field]> (types st))
             (no_of_typed_columns st + 1)
  else st.

(** Line 54: [enumerate(zip(row, types))] from index [i] on.  [zip] reads
    [types[i]] from the list being updated and stops at the shorter of the
    two sequences. *)
Fixpoint scan_row (i : nat) (row : row) (st : state) : state :=
  match row with
  | [] => st
  | field :: row' =>
      match types st !! i with
      | None => st
      | Some column_type => scan_row (S i) row' (visit i field column_type st)
      end
  end.

(** Lines 51-57: [for row in rows].  Every turn first pulls a row, then
    tests the counter against the length of that row. *)
Fixpoint for_rows (pending delivered : list row) (st : state)
    : state * iterator :=
  match pending with
  | [] => (st, Iterator [] delivered)
  | row :: rest =>
      if no_of_typed_columns st =? length row
      then (st, Iterator rest (delivered ++ [row]))
      else for_rows rest (delivered ++ [row]) (scan_row 0 row st)
  end.

(** Lines 44-49: the state after the first row. *)
Definition first_state (row : row) : state :=
  State (guess_sql_type <$> row) (count_typed (guess_sql_type <$> row)).

Definition predict_column_types (rows : iterator)
    : result (list (option string)) * iterator :=
  match next rows with
  | (Raise e, rows') => (Raise e, rows')
  | (Return row, rows') =>
      let (st, rows'') :=
        for_rows (pending rows') (delivered rows') (first_state row) in
      (Return (types st), rows'')
  end.

(** The states after each turn of the inner loop, and of the whole run. *)
Fixpoint scan_row_states (i : nat) (row : row) (st : state) : list state :=
  match row with
  | [] => []
  | field :: row' =>
      match types st !! i with
      | None => []
      | Some column_type =>
          let st' := visit i field column_type st in
          st' :: scan_row_states (S i) row' st'
      end
  end.

Fixpoint for_rows_states (pending : list row) (st : state) : list state :=
  match pending with
  | [] => []
  | row :: rest =>
      if no_of_typed_columns st =? length row then []
      else scan_row_states 0 row st
           ++ for_rows_states rest (scan_row 0 row st)
  end.

Definition predict_states (rows : list row) : list state :=
  match rows with
  | [] => []
  | row :: rest =>
      first_state row :: for_rows_states rest (first_state row)
  end.

(** ** Notions used in the statements *)

(** The number of slots that are not unresolved. *)
Definition count_resolved (types : list (option string)) : nat :=
  length (filter is_Some types).

(** The first non-empty value found at index [i], going down the rows. *)
Fixpoint first_nonempty (i : nat) (rows : list row) : option string :=
  match rows with
  | [] => None
  | row :: rest =>
      match row !! i with
      | Some field =>
          if len field =? 0 then first_nonempty i rest else Some field
      | None => first_nonempty i rest
      end
  end.

(** Every row has [n] fields. *)
Definition uniform (n : nat) (rows : list row) : Prop :=
  Forall (λ row : row, length row = n) rows.

(** What the proofs need of a table entry. *)
Definition well_formed (pt : Re.pattern * string) : Prop :=
  Re.separated pt.1 ∧ Re.match_here pt.1 "" = None ∧ pt.2 ≠ "".

(** The slot value written by one turn of the inner loop. *)
Definition refine (column_type : option string) (field : string)
    : option string :=
  if negb (len field =? 0) && bool_decide (column_type = None)
  then guess_sql_type field else column_type.

(** One turn of the inner loop. *)
Definition turn (st st' : state) : Prop :=
  ∃ i field column_type,
    types st !! i = Some column_type ∧ st' = visit i field column_type st.

(** A run: each state follows from the one before by a turn. *)
Fixpoint chained (st : state) (l : list state) : Prop :=
  match l with
  | [] => True
  | st' :: l' => turn st st' ∧ chained st' l'
  end.

(** The counter agrees with the type vector. *)
Definition counted (st : state) : Prop :=
  no_of_typed_columns st = count_resolved (types st).

(** The five rules of the classifier as the specification words them,
    in its order: three date shapes (digit groups joined by separators
    from [./-], not necessarily the same one twice), a signed decimal
    with a fractional part, and a signed integer. *)
Definition digits (s : string) : Prop := Re.all_in Re.Digit s = true.
Definition separator_char (s : string) : Prop := s = "." ∨ s = "/" ∨ s = "-".
Definition sign (s : string) : Prop := s = "" ∨ s = "+" ∨ s = "-".

Definition date_shape (n1 n2 n3 : nat) (s : string) : Prop :=
  ∃ a s1 b s2 c,
    s = a +:+ s1 +:+ b +:+ s2 +:+ c
    ∧ (digits a ∧ len a = n1) ∧ separator_char s1
    ∧ (digits b ∧ len b = n2) ∧ separator_char s2
    ∧ (digits c ∧ len c = n3).

Definition signed_fraction (s : string) : Prop :=
  ∃ sg i f,
    s = sg +:+ i +:+ "." +:+ f
    ∧ sign sg ∧ (digits i ∧ 1 ≤ len i) ∧ (digits f ∧ 1 ≤ len f).

Definition signed_integer (s : string) : Prop :=
  ∃ sg i, s = sg +:+ i ∧ sign sg ∧ (digits i ∧ 1 ≤ len i).


(** ** More of [re]: [split] and [sub] *)

Module ReMore.
Import Re.

(** [re.split] for a pattern without groups: the pieces of [s] between
    the non-overlapping matches.  [piece] is the piece being read and
    [skip] counts the characters of the last match still to be passed
    over.  An empty match ends the piece without consuming anything. *)
Fixpoint split_from (p : pattern) (skip : nat) (piece : string) (s : string)
    : list string :=
  match skip with
  | S k =>
      match s with
      | String _ s' => split_from p k piece s'
      | EmptyString => [piece]
      end
  | 0 =>
      match match_at p s with
      | Some m =>
          match s with
          | String a s' =>
              if len m =? 0
              then piece :: split_from p 0 (String a "") s'
              else piece :: split_from p (len m - 1) "" s'
          | EmptyString => [piece; ""]
          end
      | None =>
          match s with
          | String a s' => split_from p 0 (piece +:+ String a "") s'
          | EmptyString => [piece]
          end
      end
  end.

Definition split (p : pattern) (s : string) : list string :=
  split_from p 0 "" s.

(** [re.sub] with a replacement text free of backslashes: every match is
    replaced by [repl]. *)
Fixpoint sub_from (p : pattern) (repl : string) (skip : nat) (s : string)
    : string :=
  match skip with
  | S k =>
      match s with
      | String _ s' => sub_from p repl k s'
      | EmptyString => ""
      end
  | 0 =>
      match match_at p s with
      | Some m =>
          repl +:+
          match s with
          | String a s' =>
              if len m =? 0
              then String a (sub_from p repl 0 s')
              else sub_from p repl (len m - 1) s'
          | EmptyString => ""
          end
      | None =>
          match s with
          | String a s' => String a (sub_from p repl 0 s')
          | EmptyString => ""
          end
      end
  end.

Definition sub (p : pattern) (repl : string) (s : string) : string :=
  sub_from p repl 0 s.

End ReMore.

(** ** [extract_file_name] *)

(** How a call ends when it does not return: an exception of the core,
    an index out of range, or an error raised by the database driver. *)
Inductive failure :=
  | Uncaught (e : exn)
  | IndexError
  | MariadbError (message : string).

Inductive outcome (A : Type) :=
  | Done (a : A)
  | Failed (f : failure).
Arguments Done {A} a.
Arguments Failed {A} f.

(** The code points of the model. *)
Definition all_chars : list ascii := ascii_of_nat <$> seq 0 256.

Definition is_alnum (a : ascii) : bool :=
  let n := nat_of_ascii a in
  ((65 <=? n) && (n <=? 90)) || ((97 <=? n) && (n <=? 122))
  || ((48 <=? n) && (n <=? 57)).

(** [[^A-Za-z0-9]]: every code point outside the three ranges. *)
Definition non_alnum : Re.charset :=
  Re.OneOf (filter (λ a, is_alnum a = false) all_chars).

(** [[\/.]]: a slash or a dot. *)
Definition path_separator : Re.charset := Re.OneOf ["/"; "."]%char.

(** [re.sub("[^A-Za-z0-9]", "_", re.split("[\\/.]", path)[-2])] *)
Definition extract_file_name (path : string) : outcome string :=
  let parts := ReMore.split [Re.one path_separator] path in
  if length parts <? 2 then Failed IndexError
  else
    match parts !! (length parts - 2) with
    | Some part => Done (ReMore.sub [Re.one non_alnum] "_" part)
    | None => Failed IndexError
    end.

(** Splitting and substituting one character at a time. *)
Fixpoint split_chars (c : Re.charset) (piece : string) (s : string)
    : list string :=
  match s with
  | EmptyString => [piece]
  | String a s' =>
      if Re.in_charset c a then piece :: split_chars c "" s'
      else split_chars c (piece +:+ String a "") s'
  end.

Fixpoint sub_chars (c : Re.charset) (repl : string) (s : string) : string :=
  match s with
  | EmptyString => ""
  | String a s' =>
      if Re.in_charset c a then repl +:+ sub_chars c repl s'
      else String a (sub_chars c repl s')
  end.

(** The characters of a string, and the strings free of a set. *)
Definition chars (s : string) : list ascii := list_ascii_of_string s.

Definition free_of (c : Re.charset) (s : string) : Prop :=
  Forall (λ a, Re.in_charset c a = false) (chars s).

(** Every character outside [A-Za-z0-9] replaced by an underscore. *)
Fixpoint sanitize (s : string) : string :=
  match s with
  | EmptyString => ""
  | String a s' => String (if is_alnum a then a else "_"%char) (sanitize s')
  end.

(** ** [csv_to_db] *)

(** What the function does to the world outside, in order: lines
    printed, the password prompt, and the calls on the database driver. *)
Inductive call :=
  | Print (line : string)
  | GetPass (prompt : string)
  | Connect (host : option string) (port : Z) (user : option string)
            (password : string)
  | Cursor
  | Execute (statement : string) (data : option (list (option string)))
  | Commit
  | Close.

(** The world outside: the password typed at the prompt and, for each
    call on the database after the calls made so far, the message of
    the [mariadb.Error] it raises, if it raises one.  Printing and the
    prompt are taken to succeed. *)
Record world := World {
  typed : string;
  db_error : list call → call → option string
}.

(** A computation extends the history of calls and returns or fails. *)
Definition M (A : Type) : Type := list call → outcome A * list call.

#[global] Instance M_ret : MRet M := λ A a history, (Done a, history).

#[global] Instance M_bind : MBind M := λ A B f m history,
  match m history with
  | (Done a, history') => f a history'
  | (Failed e, history') => (Failed e, history')
  end.

Definition raise {A : Type} (f : failure) : M A :=
  λ history, (Failed f, history).

Definition print (line : string) : M unit :=
  λ history, (Done (), history ++ [Print line]).

Definition getpass (w : world) (prompt : string) : M string :=
  λ history, (Done (typed w), history ++ [GetPass prompt]).

(** A call on the database that passes a [mariadb.Error] on. *)
Definition db_call (w : world) (c : call) : M unit :=
  λ history,
    match db_error w history c with
    | None => (Done (), history ++ [c])
    | Some message => (Failed (MariadbError message), history ++ [c])
    end.

(** [str(v)] for a value that is a [str] or [None], and for a count. *)
Definition str (v : option string) : string := default "None" v.

Definition str_nat (n : nat) : string :=
  NilZero.string_of_uint (Nat.to_uint n).

(** The line feed. *)
Definition nl : string := String "010" "".

(** [sep.join(items)] *)
Fixpoint join (sep : string) (items : list string) : string :=
  match items with
  | [] => ""
  | item :: rest =>
      match rest with
      | [] => item
      | _ => item +:+ sep +:+ join sep rest
      end
  end.

(** [repr] of a tuple, from the [repr] of its items. *)
Definition repr_tuple (items : list string) : string :=
  "(" +:+ join ", " items +:+ (if length items =? 1 then "," else "")
  +:+ ")".

(** Lines 61-67: [true] stands for a connection, [false] for [None]. *)
Definition get_db_connection (w : world) (host : option string) (port : Z)
    (user : option string) (password : string) : M bool :=
  λ history,
    match db_error w history (Connect host port user password) with
    | None => (Done true, history ++ [Connect host port user password])
    | Some err =>
        (print ("Error occurred while connecting MariaDB: " +:+ err);;
         mret false)
          (history ++ [Connect host port user password])
    end.

(** Lines 101-105: the text of the [CREATE TABLE] statement. *)
Definition table_creation (table : string) (keep : bool)
    (column_names : list string) (column_types : list (option string))
    : string :=
  let start :=
    "CREATE TABLE " +:+ (if keep then " IF NOT EXISTS " else "") +:+ " "
    +:+ table +:+ " (" in
  let text :=
    foldl (λ text '(column, type),
             text +:+ column +:+ " " +:+ str type +:+ "," +:+ nl)
          start (zip column_names column_types) in
  Re.take_str (len text - 2) text +:+ nl +:+ ");".

(** Lines 109-110: the text of the [INSERT] statement. *)
Definition insertion (table : string) (column_names : list string) : string :=
  "INSERT INTO " +:+ table +:+ " VALUES"
  +:+ ReMore.sub [Re.one (Re.OneOf ["'"%char])] ""
        (" " +:+ repr_tuple ((λ _, "'?'") <$> column_names) +:+ ";").

(** Line 119: an empty field is sent as [None]. *)
Definition row_data (row : row) : list (option string) :=
  (λ field, if 0 <? len field then Some field else None) <$> row.

(** Lines 117-121: one [execute] per row left in the file. *)
Fixpoint insert_rows (w : world) (insertion : string) (rows : list row)
    (no_of_rows : nat) : M nat :=
  match rows with
  | [] => mret no_of_rows
  | row :: rest =>
      db_call w (Execute insertion (Some (row_data row)));;
      insert_rows w insertion rest (no_of_rows + 1)
  end.

(** Lines 91-107: the cursor, the database and the table.  Returns the
    qualified name of the table. *)
Definition create_table (w : world) (path : string)
    (db table_name : option string) (drop keep : bool)
    (column_names : list string) (column_types : list (option string))
    : M string :=
  db_call w Cursor;;
  db_call w (Execute ("CREATE DATABASE IF NOT EXISTS " +:+ str db +:+ ";")
                     None);;
  table_name ← match table_name with
               | None =>
                   match extract_file_name path with
                   | Done name => mret name
                   | Failed f => raise f
                   end
               | Some name => mret name
               end;
  let table := str db +:+ "." +:+ table_name in
  (if drop
   then db_call w (Execute ("DROP TABLE IF EXISTS " +:+ table +:+ ";") None)
   else mret ());;
  db_call w (Execute (table_creation table keep column_names column_types)
                     None);;
  mret table.

(** Lines 109-125: a second reader on the same open file, one row
    skipped, the rest inserted and committed. *)
Definition insert_file (w : world) (table : string)
    (column_names : list string) (csv_reader : iterator) : M unit :=
  match next csv_reader with
  | (Raise e, _) => raise (Uncaught e)
  | (Return _, csv_reader) =>
      print ("Inserting CSV data into `" +:+ table +:+ "`");;
      no_of_rows ← insert_rows w (insertion table column_names)
                               (pending csv_reader) 0;
      print ("Inserted " +:+ str_nat no_of_rows +:+ " records");;
      db_call w Commit;;
      db_call w Close
  end.

(** Lines 74-127.  [file] holds the rows that [csv.reader] yields for the
    file at [path], which is taken to open.  Both readers draw from the
    one open file, so the second one goes on where the first one
    stopped. *)
Definition csv_to_db (w : world) (file : list row) (path : string)
    (host : option string) (port : Z) (user db table_name : option string)
    (drop keep : bool) : M unit :=
  print "";;
  print "Loading CSV";;
  print "Collecting column names and types";;
  match next (iter file) with
  | (Raise e, _) => raise (Uncaught e)
  | (Return column_names, csv_reader) =>
  match predict_column_types csv_reader with
  | (Raise e, _) => raise (Uncaught e)
  | (Return column_types, csv_reader) =>
      password ← getpass w "MariaDB password:";
      conn ← get_db_connection w host port user password;
      if negb conn then mret () else
      print ("Connected to MariaDB as `" +:+ str user +:+ "`@`" +:+ str host
             +:+ "`");;
      table ← create_table w path db table_name drop keep
                           column_names column_types;
      insert_file w table column_names csv_reader;;
      print "CSV exported to MariaDB"
  end
  end.

(** The world in which the database never raises. *)
Definition calm (password : string) : world := World password (λ _ _, None).

(** The statements executed and the rows sent, in order. *)
Definition executed (history : list call) : list string :=
  omap (λ c, match c with Execute statement _ => Some statement | _ => None end)
       history.

Definition sent (history : list call) : list (list (option string)) :=
  omap (λ c, match c with Execute _ data => data | _ => None end) history.

(** The number of rows that [predict_column_types] pulls from a stream. *)
Definition pulled (rows : list row) : nat :=
  length (delivered (predict_column_types (iter rows)).2).

(** Whether [conn.commit()] was called. *)
Definition committed (history : list call) : bool :=
  existsb (λ c, match c with Commit => true | _ => false end) history.

(** The last call made is the one whose error ended the run. *)
Definition stopped_by (w : world) (message : string) (history : list call)
    : Prop :=
  ∃ before c, history = before ++ [c] ∧ db_error w before c = Some message.

(** The number of characters of a string that are not digits. *)
Fixpoint nondigits (s : string) : nat :=
  match s with
  | EmptyString => 0
  | String a s' => (if Re.is_digit a then 0 else 1) + nondigits s'
  end.

(** ** Facts about the matcher *)

Module ReFacts.
Import Re.

(** *** Strings *)

Lemma app_cons a s1 s2 : String a s1 +:+ s2 = String a (s1 +:+ s2).
Proof. reflexivity. Qed.

Lemma len_app s1 s2 : len (s1 +:+ s2) = len s1 + len s2.
Proof.
  induction s1 as [|a s1 IH]; [done|]. rewrite app_cons. simpl. by f_equal.
Qed.

Lemma len_zero s : len s = 0 → s = "".
Proof. by destruct s. Qed.

Lemma app_empty_r s : s +:+ "" = s.
Proof. induction s as [|a s IH]; [done|]. rewrite app_cons. by f_equal. Qed.

Lemma app_assoc_str s1 s2 s3 : (s1 +:+ s2) +:+ s3 = s1 +:+ (s2 +:+ s3).
Proof.
  induction s1 as [|a s1 IH]; [done|]. rewrite !app_cons. by f_equal.
Qed.

Lemma take_str_empty n : take_str n "" = "".
Proof. by destruct n. Qed.

Lemma take_str_len n s : len (take_str n s) = n `min` len s.
Proof.
  revert s. induction n as [|n IH]; intros [|a s]; simpl; try done.
  by rewrite IH.
Qed.

Lemma take_str_app s1 s2 : take_str (len s1) (s1 +:+ s2) = s1.
Proof.
  induction s1 as [|a s1 IH]; [by destruct s2|].
  rewrite app_cons. simpl. by f_equal.
Qed.

Lemma take_str_all s : take_str (len s) s = s.
Proof. rewrite <-(app_empty_r s) at 2. by rewrite take_str_app. Qed.

(** *** The matcher finds only full matches of a prefix *)

Lemma repeat_one_sound c lo hi tail s : ∀ count n,
  within hi count →
  repeat_one c lo hi tail count s = Some n →
  ∃ s1 s2 m, s = s1 +:+ s2 ∧ n = len s1 + m ∧ all_in c s1 = true
    ∧ lo ≤ count + len s1 ∧ within hi (count + len s1) ∧ tail s2 = Some m.
Proof.
  induction s as [|a s IH]; intros count n Hw H; simpl in H.
  - destruct (lo <=? count) eqn:Hlo; [|done].
    apply Nat.leb_le in Hlo. exists "", "", n. simpl.
    rewrite Nat.add_0_r. done.
  - assert (Hstop : (if lo <=? count then tail (String a s) else None) = Some n →
      ∃ s1 s2 m, String a s = s1 +:+ s2 ∧ n = len s1 + m ∧ all_in c s1 = true
        ∧ lo ≤ count + len s1 ∧ within hi (count + len s1) ∧ tail s2 = Some m).
    { intros Hs. destruct (lo <=? count) eqn:Hlo; [|done].
      apply Nat.leb_le in Hlo. exists "", (String a s), n. simpl.
      rewrite Nat.add_0_r. done. }
    destruct (in_charset c a && below hi count) eqn:Hc; [|by apply Hstop].
    destruct (repeat_one c lo hi tail (S count) s) as [n'|] eqn:Hr;
      [|by apply Hstop].
    apply andb_prop in Hc as [Hin Hb]. injection H as <-.
    apply IH in Hr as (s1 & s2 & m & -> & -> & Hall & Hlo & Hhi & Ht).
    + exists (String a s1), s2, m. simpl. rewrite Hin, Hall.
      replace (count + S (len s1)) with (S count + len s1) by lia. done.
    + destruct hi as [h|]; simpl in *; [|done]. apply Nat.ltb_lt in Hb. lia.
Qed.

Lemma match_here_sound p : ∀ s n,
  match_here p s = Some n →
  ∃ m rest, s = m +:+ rest ∧ len m = n ∧ full_match p m.
Proof.
  induction p as [|q p IH]; intros s n H; simpl in H.
  - injection H as <-. exists "", s. split_and!; [done..|constructor].
  - apply repeat_one_sound in H as (s1 & s2 & k & -> & -> & Hall & Hlo & Hhi & Ht);
      [|destruct (hi q); simpl; [lia|done]].
    apply IH in Ht as (m & rest & -> & <- & Hm).
    exists (s1 +:+ m), rest. rewrite app_assoc_str, len_app.
    split_and!; [done..|]. by constructor.
Qed.

Lemma match_here_le p s n : match_here p s = Some n → n ≤ len s.
Proof.
  intros (m & rest & -> & <- & _)%match_here_sound. rewrite len_app. lia.
Qed.

Lemma match_here_all p s : match_here p s = Some (len s) → full_match p s.
Proof.
  intros (m & rest & Hs & Hl & Hm)%match_here_sound.
  assert (rest = "") as ->.
  { apply len_zero. rewrite Hs, len_app in Hl. lia. }
  by rewrite Hs, app_empty_r.
Qed.

(** *** On separated patterns the matcher finds every full match *)

Lemma repeat_one_complete c lo hi tail s1 : ∀ count s2 m,
  all_in c s1 = true → lo ≤ count + len s1 → within hi (count + len s1) →
  boundary c hi (count + len s1) s2 → tail s2 = Some m →
  repeat_one c lo hi tail count (s1 +:+ s2) = Some (len s1 + m).
Proof.
  induction s1 as [|a s1 IH]; intros count s2 m Hall Hlo Hhi Hb Ht;
    [change ("" +:+ s2) with s2 | rewrite app_cons]; simpl in *.
  - rewrite Nat.add_0_r in *.
    assert (Hstop : (if lo <=? count then tail s2 else None) = Some m).
    { by rewrite (proj2 (Nat.leb_le _ _) Hlo). }
    destruct s2 as [|a s2]; simpl; [done|].
    destruct Hb as [Hb | ->].
    + by rewrite Hb.
    + simpl. rewrite Nat.ltb_irrefl, andb_false_r. done.
  - apply andb_prop in Hall as [Hin Hall]. rewrite Hin. simpl.
    replace (count + S (len s1)) with (S count + len s1) in * by lia.
    assert (below hi count = true) as ->.
    { destruct hi as [h|]; simpl in *; [|done]. apply Nat.ltb_lt. lia. }
    by rewrite (IH (S count) s2 m).
Qed.

Lemma full_match_head q p s :
  full_match (q :: p) s → 1 ≤ lo q →
  ∃ a s', s = String a s' ∧ in_charset (set q) a = true.
Proof.
  intros H Hlo. inversion H as [|q' p' s1 s2 (Hall & Hl & _) _]; subst.
  destruct s1 as [|a s1]; simpl in *; [lia|].
  apply andb_prop in Hall as [Hin _]. eauto.
Qed.

Lemma match_here_complete p s :
  separated p → full_match p s → match_here p s = Some (len s).
Proof.
  intros Hsep H. induction H as [|q p s1 s2 (Hall & Hlo & Hhi) H IH]; [done|].
  simpl. rewrite len_app. apply repeat_one_complete; simpl; try done.
  - destruct p as [|q2 p].
    + inversion H; subst. done.
    + destruct Hsep as (Hlo2 & Hdis & _).
      destruct (full_match_head _ _ _ H Hlo2) as (a & s' & -> & Hin).
      simpl. left. destruct (in_charset (set q) a) eqn:Hq; [|done].
      apply Hdis in Hq. congruence.
  - apply IH. destruct p as [|q2 p]; [done|]. apply Hsep.
Qed.

(** *** [findall] *)

Lemma findall_from_len p s : ∀ k m, m ∈ findall_from p k s → len m ≤ len s.
Proof.
  induction s as [|a s IH]; intros [|k] m; simpl; unfold match_at.
  - destruct (match_here p "") as [n|]; [|by intros ?%elem_of_nil].
    rewrite take_str_empty. intros ->%list_elem_of_singleton. done.
  - by intros ?%elem_of_nil.
  - destruct (match_here p (String a s)) as [n|] eqn:Hm.
    + intros [->|Hin]%elem_of_cons.
      * rewrite take_str_len. simpl. lia.
      * apply IH in Hin. lia.
    + intros Hin%IH. lia.
  - intros Hin%IH. lia.
Qed.

Lemma findall_single p s m :
  findall p s = [m] → len m = len s → match_here p s = Some (len s).
Proof.
  unfold findall. intros H Hl.
  assert (Hat : match_at p s = Some m).
  { destruct s as [|a s]; simpl in H.
    - destruct (match_at p ""); by simplify_eq.
    - destruct (match_at p (String a s)); [by simplify_eq|].
      assert (Hin : m ∈ findall_from p 0 s) by (rewrite H; left).
      apply findall_from_len in Hin. simpl in Hl. lia. }
  unfold match_at in Hat. destruct (match_here p s) as [n|] eqn:Hm; [|done].
  injection Hat as <-. rewrite take_str_len in Hl.
  apply match_here_le in Hm. f_equal. lia.
Qed.

Lemma findall_skip_all p s :
  match_here p "" = None → findall_from p (len s) s = [].
Proof.
  intros H. induction s as [|a s IH]; simpl; [|done].
  unfold match_at. by rewrite H.
Qed.

Lemma findall_full p s :
  s ≠ "" → match_here p "" = None → match_here p s = Some (len s) →
  findall p s = [s].
Proof.
  intros Hne He Hm. destruct s as [|a s]; [done|].
  unfold findall. cbn [findall_from]. unfold match_at. rewrite Hm.
  rewrite take_str_all. f_equal.
  replace (len (String a s) - 1) with (len s) by (simpl; lia).
  by apply findall_skip_all.
Qed.

End ReFacts.

(** ** Facts about the classifier *)

Section Classifier.
Import Re ReFacts.

Lemma separator_not_digit a :
  in_charset separator a = true → in_charset Digit a = false.
Proof. destruct a as [[] [] [] [] [] [] [] []]; vm_compute; done. Qed.

Lemma digit_not_separator a :
  in_charset Digit a = true → in_charset separator a = false.
Proof. destruct a as [[] [] [] [] [] [] [] []]; vm_compute; done. Qed.

Lemma digit_not_dot a :
  in_charset Digit a = true → in_charset (OneOf ["."%char]) a = false.
Proof. destruct a as [[] [] [] [] [] [] [] []]; vm_compute; done. Qed.

Lemma dot_not_digit a :
  in_charset (OneOf ["."%char]) a = true → in_charset Digit a = false.
Proof. destruct a as [[] [] [] [] [] [] [] []]; vm_compute; done. Qed.

Lemma sign_not_digit a :
  in_charset (OneOf ["-"; "+"]%char) a = true → in_charset Digit a = false.
Proof. destruct a as [[] [] [] [] [] [] [] []]; vm_compute; done. Qed.

Lemma sign_not_digit' a :
  in_charset (OneOf ["+"; "-"]%char) a = true → in_charset Digit a = false.
Proof. destruct a as [[] [] [] [] [] [] [] []]; vm_compute; done. Qed.

(** The patterns of the table are the source's texts, compiled. *)
Lemma table_compiled :
  compile <$> pattern_sources = Some <$> pattern_type_pairs.*1.
Proof. reflexivity. Qed.

Lemma table_well_formed : Forall well_formed pattern_type_pairs.
Proof.
  unfold pattern_type_pairs.
  repeat (constructor; [split; [|split; [reflexivity|discriminate]]|]);
    [..|constructor];
    cbn [separated fst set lo exactly one opt plus];
    repeat split; try lia;
    auto using separator_not_digit, digit_not_separator, digit_not_dot,
      dot_not_digit, sign_not_digit, sign_not_digit'.
Qed.

Lemma match_type_sound p t field t' :
  match_type p t field = Some t' → t' = t ∧ full_match p field.
Proof.
  unfold match_type. intros H.
  destruct (findall p field) as [|m [|m' ms]] eqn:Hf; simpl in H; try done.
  case_bool_decide as Hl; simpl in H; [|done].
  injection H as <-. split; [done|].
  apply match_here_all, (findall_single p field m); [done|congruence].
Qed.

Lemma match_type_complete p t field :
  separated p → match_here p "" = None → field ≠ "" →
  full_match p field → match_type p t field = Some t.
Proof.
  intros Hsep He Hne Hm. unfold match_type.
  rewrite (findall_full p field) by auto using match_here_complete.
  simpl. by rewrite !bool_decide_eq_true_2.
Qed.

(** On a separated pattern, running the matcher decides [full_match]. *)
Lemma full_match_iff p s :
  separated p → full_match p s ↔ match_here p s = Some (len s).
Proof.
  intros Hsep. split; [by apply match_here_complete|apply match_here_all].
Qed.



Lemma first_match_is_Some pairs field : is_Some (first_match pairs field).
Proof.
  induction pairs as [|[q u] pairs IH]; simpl; [by eexists|].
  destruct (match_type q u field) as [[|a u']|]; simpl; done.
Qed.


Lemma guess_sql_type_empty field : len field = 0 → guess_sql_type field = None.
Proof. unfold guess_sql_type. by intros ->. Qed.

Lemma guess_sql_type_nonempty field :
  len field ≠ 0 → is_Some (guess_sql_type field).
Proof.
  unfold guess_sql_type. intros ->%Nat.eqb_neq. apply first_match_is_Some.
Qed.

Lemma guess_sql_type_None field : guess_sql_type field = None ↔ len field = 0.
Proof.
  split; [|apply guess_sql_type_empty].
  intros H. destruct (decide (len field = 0)) as [|Hne]; [done|].
  apply guess_sql_type_nonempty in Hne as [t Ht]. congruence.
Qed.

End Classifier.

(** ** The table and the rules *)

Section Rules.
Import Re ReFacts.

Lemma full_match_nil_iff s : full_match [] s ↔ s = "".
Proof. split; [by inversion 1|intros ->; constructor]. Qed.

Lemma full_match_cons_iff q p s :
  full_match (q :: p) s
  ↔ ∃ s1 s2, s = s1 +:+ s2 ∧ in_piece q s1 ∧ full_match p s2.
Proof.
  split; [inversion 1; subst; eauto|].
  intros (s1 & s2 & -> & ? & ?). by constructor.
Qed.

Lemma in_piece_exactly n s :
  in_piece (exactly n Digit) s ↔ digits s ∧ len s = n.
Proof. unfold in_piece, digits. simpl. intuition lia. Qed.

Lemma in_piece_plus s : in_piece (plus Digit) s ↔ digits s ∧ 1 ≤ len s.
Proof. unfold in_piece, digits. simpl. intuition lia. Qed.

Lemma in_piece_one l s :
  in_piece (one (OneOf l)) s ↔ ∃ a, s = String a "" ∧ a ∈ l.
Proof.
  unfold in_piece. simpl. split.
  - intros (Hall & Hlo & Hhi). destruct s as [|a [|b s]]; simpl in *; try lia.
    exists a. split; [done|]. rewrite andb_true_r in Hall.
    by apply bool_decide_eq_true in Hall.
  - intros (a & -> & Ha). simpl. rewrite bool_decide_eq_true_2 by done.
    split_and!; [done|lia..].
Qed.

Lemma in_piece_opt l s :
  in_piece (opt (OneOf l)) s ↔ s = "" ∨ ∃ a, s = String a "" ∧ a ∈ l.
Proof.
  unfold in_piece. simpl. split.
  - intros (Hall & Hlo & Hhi). destruct s as [|a [|b s]]; simpl in *; try lia;
      [by left|].
    right. exists a. split; [done|]. rewrite andb_true_r in Hall.
    by apply bool_decide_eq_true in Hall.
  - intros [-> | (a & -> & Ha)]; simpl; [split_and!; [done|lia..]|].
    rewrite bool_decide_eq_true_2 by done. split_and!; [done|lia..].
Qed.

Lemma in_piece_separator s : in_piece (one separator) s ↔ separator_char s.
Proof.
  unfold separator, separator_char. rewrite in_piece_one. split.
  - intros (a & -> & Ha).
    repeat (apply elem_of_cons in Ha as [->|Ha]); auto.
    by apply elem_of_nil in Ha.
  - intros [-> | [-> | ->]]; eexists; (split; [done|]);
      repeat constructor.
Qed.

Lemma in_piece_dot s : in_piece (one (OneOf ["."%char])) s ↔ s = ".".
Proof.
  rewrite in_piece_one. split.
  - by intros (a & -> & ->%list_elem_of_singleton).
  - intros ->. eexists. split; [done|]. by apply list_elem_of_singleton.
Qed.

Lemma in_piece_sign s : in_piece (opt (OneOf ["-"; "+"]%char)) s ↔ sign s.
Proof.
  unfold sign. rewrite in_piece_opt. split.
  - intros [-> | (a & -> & Ha)]; [auto|].
    repeat (apply elem_of_cons in Ha as [->|Ha]); auto.
    by apply elem_of_nil in Ha.
  - intros [-> | [-> | ->]]; [by left|right..]; eexists; (split; [done|]);
      repeat constructor.
Qed.

Lemma in_piece_sign' s : in_piece (opt (OneOf ["+"; "-"]%char)) s ↔ sign s.
Proof.
  unfold sign. rewrite in_piece_opt. split.
  - intros [-> | (a & -> & Ha)]; [auto|].
    repeat (apply elem_of_cons in Ha as [->|Ha]); auto.
    by apply elem_of_nil in Ha.
  - intros [-> | [-> | ->]]; [by left|right..]; eexists; (split; [done|]);
      repeat constructor.
Qed.

Lemma date_shape_iff n1 n2 n3 s :
  full_match [exactly n1 Digit; one separator; exactly n2 Digit;
              one separator; exactly n3 Digit] s
  ↔ date_shape n1 n2 n3 s.
Proof.
  unfold date_shape. repeat setoid_rewrite full_match_cons_iff.
  setoid_rewrite full_match_nil_iff.
  repeat setoid_rewrite in_piece_exactly. setoid_rewrite in_piece_separator.
  split.
  - intros (a & ? & -> & Ha & s1 & ? & -> & H1 & b & ? & -> & Hb
            & s2 & ? & -> & H2 & c & ? & -> & Hc & ->).
    rewrite app_empty_r. by exists a, s1, b, s2, c.
  - intros (a & s1 & b & s2 & c & -> & Ha & H1 & Hb & H2 & Hc).
    do 4 (eexists _, _; split; [reflexivity|]; split; [done|]).
    exists c, "". by rewrite app_empty_r.
Qed.

Lemma signed_fraction_iff s :
  full_match [opt (OneOf ["-"; "+"]%char); plus Digit;
              one (OneOf ["."%char]); plus Digit] s
  ↔ signed_fraction s.
Proof.
  unfold signed_fraction. repeat setoid_rewrite full_match_cons_iff.
  setoid_rewrite full_match_nil_iff.
  setoid_rewrite in_piece_sign. repeat setoid_rewrite in_piece_plus.
  setoid_rewrite in_piece_dot.
  split.
  - intros (sg & ? & -> & Hs & i & ? & -> & Hi & d & ? & -> & ->
            & f & ? & -> & Hf & ->).
    rewrite app_empty_r. by exists sg, i, f.
  - intros (sg & i & f & -> & Hs & Hi & Hf).
    do 3 (eexists _, _; split; [reflexivity|]; split; [done|]).
    exists f, "". by rewrite app_empty_r.
Qed.

Lemma signed_integer_iff s :
  full_match [opt (OneOf ["+"; "-"]%char); plus Digit] s ↔ signed_integer s.
Proof.
  unfold signed_integer. repeat setoid_rewrite full_match_cons_iff.
  setoid_rewrite full_match_nil_iff.
  setoid_rewrite in_piece_sign'. setoid_rewrite in_piece_plus.
  split.
  - intros (sg & ? & -> & Hs & i & ? & -> & Hi & ->).
    rewrite app_empty_r. by exists sg, i.
  - intros (sg & i & -> & Hs & Hi).
    eexists _, _; split; [reflexivity|]; split; [done|].
    exists i, "". by rewrite app_empty_r.
Qed.





End Rules.

(** ** Properties of the classifier *)





(** C6. "12.34", "-7" and "+7" are all classified with the one decimal
    tag, which is the source's "float(15)". *)
Theorem classify_signed_numbers :
  guess_sql_type "12.34" = Some decimal
  ∧ guess_sql_type "-7" = Some decimal
  ∧ guess_sql_type "+7" = Some decimal
  ∧ decimal = "float(15)".
Proof. by repeat split. Qed.

(** ** Facts about the resolver *)

Section Resolver.
Implicit Types (st : state) (tys : list (option string)).

(** *** Counting *)

Lemma count_resolved_cons v tys :
  count_resolved (v :: tys)
  = (if bool_decide (v ≠ None) then 1 else 0) + count_resolved tys.
Proof. unfold count_resolved. by destruct v. Qed.

Lemma count_resolved_le tys : count_resolved tys ≤ length tys.
Proof. apply length_filter. Qed.

Lemma count_typed_foldl tys : ∀ n,
  foldl (λ n type, if bool_decide (type ≠ None) then n + 1 else n) n tys
  = n + count_resolved tys.
Proof.
  induction tys as [|v tys IH]; intros n; simpl.
  - unfold count_resolved. simpl. lia.
  - rewrite IH, count_resolved_cons. case_bool_decide; lia.
Qed.

Lemma count_typed_resolved tys : count_typed tys = count_resolved tys.
Proof. unfold count_typed. by rewrite count_typed_foldl. Qed.

Lemma count_resolved_insert tys : ∀ i v,
  tys !! i = Some None → is_Some v →
  count_resolved (<[i:=v]> tys) = S (count_resolved tys).
Proof.
  induction tys as [|w tys IH]; intros [|i] v Hi [t ->]; simpl in *; try done.
  - injection Hi as ->. by rewrite !count_resolved_cons.
  - rewrite !count_resolved_cons, (IH i) by done. lia.
Qed.

Lemma count_resolved_full tys j :
  count_resolved tys = length tys → tys !! j = Some None → False.
Proof.
  revert j. induction tys as [|w tys IH]; intros [|j] Hc Hj; simpl in *;
    try done; rewrite count_resolved_cons in Hc;
    pose proof (count_resolved_le tys).
  - injection Hj as ->. rewrite bool_decide_eq_false_2 in Hc by auto. lia.
  - apply (IH j); [|done]. case_bool_decide; lia.
Qed.

Lemma count_resolved_all tys :
  Forall is_Some tys → count_resolved tys = length tys.
Proof.
  induction 1 as [|v tys [t ->] _ IH]; [done|].
  rewrite count_resolved_cons. simpl. by rewrite IH.
Qed.

(** *** One turn of the inner loop *)

Lemma visit_types i field ct st :
  types (visit i field ct st) = <[i := refine ct field]> (types st)
  ∨ types (visit i field ct st) = types st ∧ refine ct field = ct.
Proof.
  unfold visit, refine.
  destruct (negb (len field =? 0) && bool_decide (ct = None)); simpl; auto.
Qed.

Lemma visit_length i field ct st :
  length (types (visit i field ct st)) = length (types st).
Proof.
  destruct (visit_types i field ct st) as [-> | [-> _]]; [|done].
  apply length_insert.
Qed.

Lemma visit_lookup_ne i field ct st j :
  i ≠ j → types (visit i field ct st) !! j = types st !! j.
Proof.
  intros Hne. destruct (visit_types i field ct st) as [-> | [-> _]]; [|done].
  by apply list_lookup_insert_ne.
Qed.

Lemma visit_lookup_eq i field ct st :
  types st !! i = Some ct →
  types (visit i field ct st) !! i = Some (refine ct field).
Proof.
  intros Hi. destruct (visit_types i field ct st) as [-> | [-> ->]]; [|done].
  apply list_lookup_insert_eq. by eapply lookup_lt_Some.
Qed.

Lemma refine_Some t field : refine (Some t) field = Some t.
Proof. unfold refine. by rewrite andb_false_r. Qed.

Lemma refine_None field :
  refine None field = guess_sql_type field.
Proof.
  unfold refine. destruct (len field =? 0) eqn:Hl; simpl; [|done].
  apply Nat.eqb_eq in Hl. by rewrite guess_sql_type_empty.
Qed.

Lemma visit_keep i field ct st j t :
  types st !! i = Some ct → types st !! j = Some (Some t) →
  types (visit i field ct st) !! j = Some (Some t).
Proof.
  intros Hi Hj. destruct (decide (i = j)) as [<-|Hne].
  - rewrite visit_lookup_eq by done. simplify_eq. by rewrite refine_Some.
  - by rewrite visit_lookup_ne.
Qed.

Lemma visit_counted i field ct st :
  types st !! i = Some ct → counted st → counted (visit i field ct st).
Proof.
  unfold counted, visit. intros Hi Hc.
  destruct (len field =? 0) eqn:Hl; simpl; [done|].
  case_bool_decide as Hct; simpl; [|done]. subst ct.
  rewrite count_resolved_insert, Hc; [lia|done|].
  apply guess_sql_type_nonempty. by apply Nat.eqb_neq.
Qed.

Lemma turn_keep st st' j t :
  turn st st' → types st !! j = Some (Some t) → types st' !! j = Some (Some t).
Proof. intros (i & field & ct & Hi & ->). by apply visit_keep. Qed.

Lemma turn_counted st st' : turn st st' → counted st → counted st'.
Proof. intros (i & field & ct & Hi & ->). by apply visit_counted. Qed.

Lemma turn_length st st' :
  turn st st' → length (types st') = length (types st).
Proof. intros (i & field & ct & Hi & ->). apply visit_length. Qed.

(** *** Runs *)

Lemma chained_app st l1 l2 :
  chained st (l1 ++ l2) ↔ chained st l1 ∧ chained (default st (last l1)) l2.
Proof.
  revert st. induction l1 as [|s1 l1 IH]; intros st; simpl; [tauto|].
  rewrite IH. destruct l1 as [|s2 l1]; simpl; [tauto|].
  destruct (last (s2 :: l1)) eqn:Hl; simpl; [tauto|].
  by apply last_None in Hl.
Qed.

Lemma chained_Forall (P : state → Prop) st l :
  (∀ s s', turn s s' → P s → P s') → P st → chained st l → Forall P l.
Proof.
  intros Hstep. revert st. induction l as [|s l IH]; intros st HP Hl;
    [constructor|].
  destruct Hl as [Ht Hl]. constructor; eauto.
Qed.

Lemma chained_drop st l a sa :
  chained st l → l !! a = Some sa → chained sa (drop (S a) l).
Proof.
  revert st a. induction l as [|s l IH]; intros st [|a] Hl Ha; simpl in *;
    try done.
  - destruct Hl as [_ Hl]. by simplify_eq.
  - destruct Hl as [_ Hl]. eauto.
Qed.

(** *** The inner loop *)

Lemma scan_row_lookup row : ∀ i st j,
  types (scan_row i row st) !! j
  = (λ ct, if bool_decide (i ≤ j)
           then from_option (refine ct) ct (row !! (j - i)) else ct)
    <$> types st !! j.
Proof.
  induction row as [|field row IH]; intros i st j; simpl.
  - destruct (types st !! j); simpl; [|done]. by case_bool_decide.
  - destruct (types st !! i) as [ct|] eqn:Hi.
    + rewrite IH. destruct (decide (i = j)) as [<-|Hne].
      * rewrite visit_lookup_eq, Hi by done. simpl.
        rewrite bool_decide_eq_false_2, bool_decide_eq_true_2 by lia.
        by rewrite Nat.sub_diag.
      * rewrite visit_lookup_ne by done.
        destruct (types st !! j) as [cj|]; simpl; [|done].
        repeat case_bool_decide; try lia; [|done].
        by replace (j - i) with (S (j - S i)) by lia.
    + destruct (types st !! j) as [cj|] eqn:Hj; simpl; [|done].
      case_bool_decide as Hij; [|done].
      apply lookup_ge_None in Hi. apply lookup_lt_Some in Hj. lia.
Qed.

Lemma scan_row_last row : ∀ i st,
  scan_row i row st = default st (last (scan_row_states i row st)).
Proof.
  induction row as [|field row IH]; intros i st; simpl; [done|].
  destruct (types st !! i) as [ct|]; simpl; [|done].
  rewrite IH, last_cons.
  by destruct (last (scan_row_states (S i) row (visit i field ct st))).
Qed.

Lemma scan_row_chained row : ∀ i st, chained st (scan_row_states i row st).
Proof.
  induction row as [|field row IH]; intros i st; simpl; [done|].
  destruct (types st !! i) as [ct|] eqn:Hi; simpl; [|done].
  split; [|apply IH]. by exists i, field, ct.
Qed.

Lemma chained_last (P : state → Prop) st l :
  (∀ s s', turn s s' → P s → P s') → P st → chained st l →
  P (default st (last l)).
Proof.
  intros Hstep HP Hl. destruct (last l) as [s|] eqn:Hs; simpl; [|done].
  eapply Forall_forall; [by eapply (chained_Forall P)|].
  by apply last_Some_elem_of.
Qed.

Lemma scan_row_counted i row st : counted st → counted (scan_row i row st).
Proof.
  intros Hc. rewrite scan_row_last.
  eapply (chained_last counted); eauto using turn_counted, scan_row_chained.
Qed.

Lemma scan_row_length i row st :
  length (types (scan_row i row st)) = length (types st).
Proof.
  rewrite scan_row_last.
  apply (chained_last (λ s, length (types s) = length (types st)));
    [|done|apply scan_row_chained].
  intros s s' Ht <-. by apply turn_length.
Qed.

(** A slot still open when row [row] is scanned takes the row's value. *)
Lemma scan_row_open row st j :
  types st !! j = Some None →
  types (scan_row 0 row st) !! j
  = Some (from_option guess_sql_type None (row !! j)).
Proof.
  intros Hj. rewrite scan_row_lookup, Hj. simpl. rewrite Nat.sub_0_r.
  destruct (row !! j); simpl; [|done]. by rewrite refine_None.
Qed.

(** *** The outer loop *)

Lemma for_rows_last pending : ∀ delivered st,
  (for_rows pending delivered st).1
  = default st (last (for_rows_states pending st)).
Proof.
  induction pending as [|row rest IH]; intros delivered st; simpl; [done|].
  destruct (no_of_typed_columns st =? length row); simpl; [done|].
  rewrite IH, last_app, scan_row_last.
  by destruct (last (for_rows_states rest _)).
Qed.

Lemma for_rows_chained pending : ∀ st, chained st (for_rows_states pending st).
Proof.
  induction pending as [|row rest IH]; intros st; simpl; [done|].
  destruct (no_of_typed_columns st =? length row); simpl; [done|].
  apply chained_app. split; [apply scan_row_chained|].
  rewrite <-scan_row_last. apply IH.
Qed.

Lemma for_rows_stream pending : ∀ delivered st,
  ∃ k, k ≤ length pending
    ∧ (for_rows pending delivered st).2
      = Iterator (drop k pending) (delivered ++ take k pending).
Proof.
  induction pending as [|row rest IH]; intros delivered st; simpl.
  - exists 0. by rewrite app_nil_r.
  - destruct (no_of_typed_columns st =? length row); simpl.
    + exists 1. simpl. rewrite drop_0, take_0. split; [lia|done].
    + destruct (IH (delivered ++ [row]) (scan_row 0 row st)) as (k & Hk & ->).
      exists (S k). simpl. rewrite <-app_assoc. split; [lia|done].
Qed.

Lemma for_rows_keep pending delivered st j t :
  types st !! j = Some (Some t) →
  types (for_rows pending delivered st).1 !! j = Some (Some t).
Proof.
  intros Hj. rewrite for_rows_last.
  eapply (chained_last (λ s, types s !! j = Some (Some t)));
    eauto using for_rows_chained, turn_keep.
Qed.

Lemma for_rows_length pending delivered st :
  length (types (for_rows pending delivered st).1) = length (types st).
Proof.
  rewrite for_rows_last.
  apply (chained_last (λ s, length (types s) = length (types st)));
    [|done|apply for_rows_chained].
  intros s s' Ht <-. by apply turn_length.
Qed.

(** A slot resolved by the loop was resolved by the first non-empty value
    of its column. *)
Lemma for_rows_resolved pending : ∀ delivered st j t,
  types st !! j = Some None →
  types (for_rows pending delivered st).1 !! j = Some (Some t) →
  ∃ field, first_nonempty j pending = Some field
    ∧ guess_sql_type field = Some t.
Proof.
  induction pending as [|row rest IH]; intros delivered st j t Hj Hr;
    simpl in *; [congruence|].
  destruct (no_of_typed_columns st =? length row); simpl in *; [congruence|].
  pose proof (scan_row_open row st j Hj) as Hs.
  destruct (row !! j) as [field|] eqn:Hf; simpl in Hs; [|by eapply IH].
  destruct (len field =? 0) eqn:Hl.
  - apply Nat.eqb_eq in Hl. rewrite guess_sql_type_empty in Hs by done.
    by eapply IH.
  - apply Nat.eqb_neq, guess_sql_type_nonempty in Hl as [t' Ht'].
    rewrite Ht' in Hs.
    rewrite (for_rows_keep _ _ _ _ _ Hs) in Hr. exists field.
    split; congruence.
Qed.

(** With rows of one length the loop only stops early when nothing is
    left open, so an open slot does get the first non-empty value. *)
Lemma for_rows_uniform pending : ∀ delivered st j,
  uniform (length (types st)) pending → counted st →
  types st !! j = Some None →
  types (for_rows pending delivered st).1 !! j
  = Some (first_nonempty j pending ≫= guess_sql_type).
Proof.
  induction pending as [|row rest IH]; intros delivered st j Hu Hc Hj;
    simpl; [done|].
  apply Forall_cons in Hu as [Hrow Hu].
  destruct (no_of_typed_columns st =? length row) eqn:Hn; simpl.
  - apply Nat.eqb_eq in Hn. destruct (count_resolved_full (types st) j);
      [unfold counted in Hc; congruence|done].
  - pose proof (scan_row_open row st j Hj) as Hs.
    assert (Hopen : types (scan_row 0 row st) !! j = Some None →
      types (for_rows rest (delivered ++ [row]) (scan_row 0 row st)).1 !! j
      = Some (first_nonempty j rest ≫= guess_sql_type)).
    { apply IH; [by rewrite scan_row_length|by apply scan_row_counted]. }
    destruct (row !! j) as [field|] eqn:Hf; simpl in Hs; [|by apply Hopen].
    destruct (len field =? 0) eqn:Hl.
    + apply Nat.eqb_eq in Hl. rewrite guess_sql_type_empty in Hs by done.
      by apply Hopen.
    + apply Nat.eqb_neq, guess_sql_type_nonempty in Hl as [t' Ht'].
      rewrite Ht' in Hs. simpl. rewrite Ht'. by apply for_rows_keep.
Qed.

(** *** The first row and the whole function *)

Lemma first_state_lookup (row : list string) j :
  types (first_state row) !! j = guess_sql_type <$> row !! j.
Proof. apply list_lookup_fmap. Qed.

Lemma first_state_length row : length (types (first_state row)) = length row.
Proof. apply length_fmap. Qed.

Lemma first_state_counted row : counted (first_state row).
Proof. apply count_typed_resolved. Qed.

Lemma predict_cons row rest delivered :
  predict_column_types (Iterator (row :: rest) delivered)
  = (Return (types (for_rows rest (delivered ++ [row]) (first_state row)).1),
     (for_rows rest (delivered ++ [row]) (first_state row)).2).
Proof.
  unfold predict_column_types. simpl.
  by destruct (for_rows rest (delivered ++ [row]) (first_state row)).
Qed.

Lemma predict_chained row rest :
  chained (first_state row) (for_rows_states rest (first_state row)).
Proof. apply for_rows_chained. Qed.

Lemma predict_Return rows tys it' :
  predict_column_types (iter rows) = (Return tys, it') →
  ∃ row rest, rows = row :: rest
    ∧ tys = types (for_rows rest [row] (first_state row)).1
    ∧ it' = (for_rows rest [row] (first_state row)).2.
Proof.
  destruct rows as [|row rest]; [done|]. unfold iter.
  rewrite predict_cons. intros [= <- <-]. by exists row, rest.
Qed.

(** The vector returned is the type vector of the last state of the run. *)
Lemma predict_last_state rows tys it' :
  predict_column_types (iter rows) = (Return tys, it') →
  types <$> last (predict_states rows) = Some tys.
Proof.
  intros (row & rest & -> & -> & _)%predict_Return.
  rewrite for_rows_last. simpl. rewrite last_cons.
  by destruct (last (for_rows_states rest (first_state row))).
Qed.

Lemma first_nonempty_Some j rows field :
  first_nonempty j rows = Some field →
  len field ≠ 0 ∧ ∃ row, row ∈ rows ∧ row !! j = Some field.
Proof.
  induction rows as [|row rest IH]; simpl; [done|].
  destruct (row !! j) as [f|] eqn:Hf.
  - destruct (len f =? 0) eqn:Hl.
    + intros (? & r & ? & ?)%IH. split; [done|]. exists r. split; [by right|done].
    + intros [= <-]. apply Nat.eqb_neq in Hl. split; [done|].
      exists row. split; [by left|done].
  - intros (? & r & ? & ?)%IH. split; [done|]. exists r. split; [by right|done].
Qed.

(** A resolved slot of the result holds the type of the first non-empty
    value of its column. *)
Lemma predict_resolved rows tys it' j t :
  predict_column_types (iter rows) = (Return tys, it') →
  tys !! j = Some (Some t) →
  ∃ field, first_nonempty j rows = Some field ∧ guess_sql_type field = Some t.
Proof.
  intros (row & rest & -> & -> & _)%predict_Return Hj.
  destruct (types (first_state row) !! j) as [ct|] eqn:H0.
  - pose proof H0 as Hrow. rewrite first_state_lookup in Hrow.
    destruct (row !! j) as [f|] eqn:Hf; simpl in Hrow; [|done].
    injection Hrow as <-. simpl. rewrite Hf.
    destruct (guess_sql_type f) as [t0|] eqn:Hg.
    + rewrite (for_rows_keep _ _ _ _ _ H0) in Hj.
      assert (len f ≠ 0) as ->%Nat.eqb_neq.
      { intros Hl%guess_sql_type_empty. congruence. }
      exists f. split; congruence.
    + apply guess_sql_type_None in Hg as Hl. rewrite Hl. simpl.
      by eapply for_rows_resolved.
  - apply lookup_ge_None in H0. apply lookup_lt_Some in Hj.
    rewrite for_rows_length in Hj. lia.
Qed.

(** With rows of one length, the first non-empty value of a column sets
    its slot. *)
Lemma predict_uniform n rows tys it' j field :
  uniform n rows →
  predict_column_types (iter rows) = (Return tys, it') →
  first_nonempty j rows = Some field →
  tys !! j = Some (guess_sql_type field).
Proof.
  intros Hu (row & rest & -> & -> & _)%predict_Return Hfirst.
  apply Forall_cons in Hu as [Hrow Hu].
  assert (Hlt : j < length row).
  { apply first_nonempty_Some in Hfirst as (_ & r & Hr & Hj).
    apply lookup_lt_Some in Hj.
    rewrite (proj1 (Forall_forall _ _) (Forall_cons_2 _ _ _ Hrow Hu) r Hr) in Hj.
    lia. }
  apply lookup_lt_is_Some in Hlt as [f Hf].
  pose proof (first_state_lookup row j) as H0. rewrite Hf in H0. simpl in H0.
  simpl in Hfirst. rewrite Hf in Hfirst.
  destruct (len f =? 0) eqn:Hl.
  - apply Nat.eqb_eq in Hl. rewrite guess_sql_type_empty in H0 by done.
    rewrite for_rows_uniform, Hfirst; [done|..|done].
    + by rewrite first_state_length, Hrow.
    + apply first_state_counted.
  - injection Hfirst as <-.
    apply Nat.eqb_neq, guess_sql_type_nonempty in Hl as [t Ht].
    rewrite Ht in *. by apply for_rows_keep.
Qed.

Lemma run_keep (P : state → Prop) st l a b sa sb :
  (∀ s s', turn s s' → P s → P s') → chained st l → a ≤ b →
  (st :: l) !! a = Some sa → (st :: l) !! b = Some sb → P sa → P sb.
Proof.
  intros Hstep Hl Hab Ha Hb HP.
  destruct (decide (a = b)) as [->|Hne]; [by simplify_eq|].
  destruct b as [|b]; [lia|]. simpl in Hb.
  destruct a as [|a]; simpl in Ha.
  - injection Ha as <-.
    eapply Forall_lookup_1; [by eapply (chained_Forall P)|done].
  - pose proof (chained_drop _ _ _ _ Hl Ha) as Hd.
    eapply (Forall_lookup_1 P (drop (S a) l) (b - S a));
      [by eapply (chained_Forall P)|].
    rewrite lookup_drop, <-Hb. f_equal. lia.
Qed.

Lemma count_typed_all row :
  Forall (λ field : string, field ≠ "") row →
  count_typed (guess_sql_type <$> row) = length row.
Proof.
  intros Hrow. rewrite count_typed_resolved, count_resolved_all, length_fmap;
    [done|].
  apply Forall_fmap. eapply Forall_impl; [done|]. intros f Hf. simpl.
  apply guess_sql_type_nonempty. by destruct f.
Qed.

End Resolver.

(** ** Properties of the resolver *)

(** C1 (as the code has it). A slot that is still unresolved when the
    rows run out is returned unresolved: the vector returned is the type
    vector of the last state of the run, with no fallback to text, so a
    column in which no row has a non-empty value ends as [None].  For the
    single all-empty column [[""],[""],[""]] the result is [[None]]. *)
Theorem unresolved_slots_stay_unresolved :
  (∀ rows tys it',
     predict_column_types (iter rows) = (Return tys, it') →
     types <$> last (predict_states rows) = Some tys)
  ∧ (∀ rows tys it' j,
     predict_column_types (iter rows) = (Return tys, it') →
     j < length tys →
     first_nonempty j rows = None →
     tys !! j = Some None)
  ∧ predict_column_types (iter [[""]; [""]; [""]])
    = (Return [None], Iterator [] [[""]; [""]; [""]]).
Proof.
  split_and!; [apply predict_last_state| |done].
  intros rows tys it' j Hp Hj Hnone.
  apply lookup_lt_is_Some in Hj as [[t|] Ht]; [|done].
  destruct (predict_resolved _ _ _ _ _ Hp Ht) as (f & Hf & _). congruence.
Qed.

Lemma unresolved_slots_stay_unresolved_witness :
  [Some decimal; None] !! 1 = Some None.
Proof.
  apply (proj1 (proj2 unresolved_slots_stay_unresolved)
           [["1"; ""]; ["2"; ""]]
           [Some decimal; None] (Iterator [] [["1"; ""]; ["2"; ""]]) 1).
  - reflexivity.
  - simpl. lia.
  - reflexivity.
Defined.

(** C1 fails as stated: the all-empty column is not resolved to text. *)
Lemma all_empty_column_is_not_text :
  (predict_column_types (iter [[""]; [""]; [""]])).1 ≠ Return [Some text].
Proof. discriminate. Qed.

(** C2 (as the code has it). The counter is tested at the top of each
    turn of the outer loop, after the next row has been pulled, against
    the length of that row: when they agree the loop ends, the row just
    pulled is not inspected and nothing more is pulled.  So when the
    first row resolves every column and a second row of the same length
    follows, two rows are consumed; one row is consumed only when the
    stream holds nothing else. *)
Theorem stops_at_the_next_row :
  (∀ row rest delivered st,
     no_of_typed_columns st = length row →
     for_rows (row :: rest) delivered st
     = (st, Iterator rest (delivered ++ [row])))
  ∧ (∀ row row2 rest,
       Forall (λ field : string, field ≠ "") row →
       length row2 = length row →
       predict_column_types (iter (row :: row2 :: rest))
       = (Return (guess_sql_type <$> row), Iterator rest [row; row2]))
  ∧ (∀ row,
       predict_column_types (iter [row])
       = (Return (guess_sql_type <$> row), Iterator [] [row])).
Proof.
  split_and!.
  - intros row rest delivered st Hn. simpl.
    by rewrite (proj2 (Nat.eqb_eq _ _) Hn).
  - intros row row2 rest Hrow Hlen. unfold iter. rewrite predict_cons.
    simpl. rewrite count_typed_all, Hlen, Nat.eqb_refl by done. done.
  - intros row. unfold iter. by rewrite predict_cons.
Qed.

Lemma stops_at_the_next_row_witness :
  predict_column_types (iter [["1"; "x"]; ["2"; "y"]; ["3"; "z"]])
  = (Return [Some decimal; Some text], Iterator [["3"; "z"]] [["1"; "x"]; ["2"; "y"]]).
Proof.
  apply (proj1 (proj2 stops_at_the_next_row) ["1"; "x"] ["2"; "y"]
           [["3"; "z"]]).
  - repeat constructor; discriminate.
  - reflexivity.
Defined.

(** C2 fails as stated: the first row resolves its only column, yet two
    rows are consumed, not one. *)
Lemma first_row_resolves_all_two_rows_pulled :
  types (first_state ["1"]) = [Some decimal]
  ∧ delivered (predict_column_types (iter [["1"]; ["2"]; ["3"]])).2
    = [["1"]; ["2"]]
  ∧ length (delivered (predict_column_types (iter [["1"]; ["2"]; ["3"]])).2)
    ≠ 1.
Proof. split_and!; [done..|discriminate]. Qed.

(** C3. On an empty stream [next] raises [StopIteration], which reaches
    the caller: no type vector, in particular not the empty one, is
    returned.  With a first row the function does return. *)
Theorem empty_stream_raises :
  (∀ delivered,
     predict_column_types (Iterator [] delivered)
     = (Raise StopIteration, Iterator [] delivered))
  ∧ (predict_column_types (iter [])).1 ≠ Return []
  ∧ (∀ row rest delivered, ∃ tys it',
       predict_column_types (Iterator (row :: rest) delivered)
       = (Return tys, it')).
Proof.
  split_and!; [done|discriminate|].
  intros row rest delivered. rewrite predict_cons. eauto.
Qed.

(** C7. Throughout a run a slot that holds a type keeps it: in the
    sequence of states of the run, a resolved slot has the same value in
    every later state and in the result.  A resolved slot of the result
    holds [guess_sql_type] of the first non-empty value of its column,
    and when all rows have the same length every column with a non-empty
    value is resolved that way. *)
Theorem first_nonempty_value_decides :
  (∀ rows a b sa sb j t,
     a ≤ b →
     predict_states rows !! a = Some sa →
     predict_states rows !! b = Some sb →
     types sa !! j = Some (Some t) →
     types sb !! j = Some (Some t))
  ∧ (∀ rows tys it' s j t,
       predict_column_types (iter rows) = (Return tys, it') →
       s ∈ predict_states rows →
       types s !! j = Some (Some t) →
       tys !! j = Some (Some t))
  ∧ (∀ rows tys it' j t,
       predict_column_types (iter rows) = (Return tys, it') →
       tys !! j = Some (Some t) →
       ∃ field, first_nonempty j rows = Some field
         ∧ guess_sql_type field = Some t)
  ∧ (∀ n rows tys it' j field,
       uniform n rows →
       predict_column_types (iter rows) = (Return tys, it') →
       first_nonempty j rows = Some field →
       tys !! j = Some (guess_sql_type field)).
Proof.
  split_and!.
  - intros [|row rest] a b sa sb j t Hab Ha Hb Hj; [done|].
    eapply (run_keep (λ s, types s !! j = Some (Some t)));
      eauto using turn_keep, predict_chained.
  - intros rows tys it' s j t Hp Hs Hj.
    apply predict_Return in Hp as (row & rest & -> & -> & _).
    apply list_elem_of_lookup in Hs as [a Ha].
    rewrite for_rows_last.
    destruct (last (for_rows_states rest (first_state row))) as [sl|] eqn:Hl;
      simpl.
    + rewrite last_lookup in Hl.
      eapply (run_keep (λ s, types s !! j = Some (Some t)) _ _ a
                (S (pred (length (for_rows_states rest (first_state row))))));
        eauto using turn_keep, predict_chained.
      apply lookup_lt_Some in Ha. simpl in Ha. lia.
    + apply last_None in Hl. simpl in Ha. rewrite Hl in Ha.
      apply list_lookup_singleton_Some in Ha as [_ <-]. done.
  - apply predict_resolved.
  - apply predict_uniform.
Qed.

Lemma first_nonempty_value_decides_witness :
  [Some decimal; Some text] !! 1 = Some (guess_sql_type "hello").
Proof.
  apply (proj2 (proj2 (proj2 first_nonempty_value_decides)) 2
           [["1"; ""]; ["2"; "hello"]; ["3"; "4"]]
           [Some decimal; Some text]
           (Iterator [] [["1"; ""]; ["2"; "hello"]; ["3"; "4"]]) 1 "hello").
  - repeat constructor.
  - reflexivity.
  - reflexivity.
Defined.

(** C8. On a non-empty stream whose rows all have [n] fields the
    function returns a type vector of length [n]. *)
Theorem type_vector_length n rows :
  rows ≠ [] → uniform n rows →
  ∃ tys it',
    predict_column_types (iter rows) = (Return tys, it') ∧ length tys = n.
Proof.
  intros Hne Hu. destruct rows as [|row rest]; [done|].
  apply Forall_cons in Hu as [Hrow _]. unfold iter. rewrite predict_cons.
  eexists _, _. split; [done|].
  by rewrite for_rows_length, first_state_length.
Qed.

Lemma type_vector_length_witness :
  ∃ tys it',
    predict_column_types (iter [["1"; ""]; ["2"; "hello"]]) = (Return tys, it')
    ∧ length tys = 2.
Proof.
  apply (type_vector_length 2 [["1"; ""]; ["2"; "hello"]]).
  - discriminate.
  - repeat constructor.
Defined.

(** C9. The function is total, and what it pulls is an initial segment
    of the pending rows, each pulled once and in order: for some [k] no
    larger than the number of pending rows, the rows delivered are the
    first [k] and the stream is left at the remaining ones. *)
Theorem pulls_are_a_prefix :
  (∀ it, ∃ k,
     k ≤ length (pending it)
     ∧ (predict_column_types it).2
       = Iterator (drop k (pending it)) (delivered it ++ take k (pending it)))
  ∧ (∀ rows,
       delivered (predict_column_types (iter rows)).2
       ++ pending (predict_column_types (iter rows)).2 = rows
       ∧ length (delivered (predict_column_types (iter rows)).2)
         ≤ length rows).
Proof.
  assert (H : ∀ it, ∃ k,
     k ≤ length (pending it)
     ∧ (predict_column_types it).2
       = Iterator (drop k (pending it)) (delivered it ++ take k (pending it))).
  { intros [[|row rest] delivered].
    - exists 0. simpl. by rewrite app_nil_r.
    - rewrite predict_cons. simpl.
      destruct (for_rows_stream rest (delivered ++ [row]) (first_state row))
        as (k & Hk & ->).
      exists (S k). simpl. rewrite <-app_assoc. split; [lia|done]. }
  split; [done|]. intros rows. destruct (H (iter rows)) as (k & Hk & ->).
  simpl. rewrite take_drop, length_take. split; [done|lia].
Qed.

(** C10. In every state of a run the counter is the number of resolved
    slots.  This rests on [guess_sql_type] never answering [None] for a
    non-empty field: a write for a non-empty field into an unresolved
    slot raises both the counter and the number of resolved slots by
    one. *)
Theorem counter_counts_resolved_slots :
  (∀ rows,
     Forall (λ st, no_of_typed_columns st = count_resolved (types st))
            (predict_states rows))
  ∧ (∀ rows tys it',
       predict_column_types (iter rows) = (Return tys, it') →
       types <$> last (predict_states rows) = Some tys)
  ∧ (∀ field, field ≠ "" → guess_sql_type field ≠ None)
  ∧ (∀ i field st,
       types st !! i = Some None → field ≠ "" →
       count_resolved (types (visit i field None st))
       = S (count_resolved (types st))
       ∧ no_of_typed_columns (visit i field None st)
         = S (no_of_typed_columns st)).
Proof.
  assert (Hg : ∀ field, field ≠ "" → is_Some (guess_sql_type field)).
  { intros field Hne. apply guess_sql_type_nonempty. by destruct field. }
  split_and!.
  - intros [|row rest]; simpl; [constructor|].
    constructor; [apply first_state_counted|].
    eapply (chained_Forall counted);
      eauto using turn_counted, first_state_counted, predict_chained.
  - apply predict_last_state.
  - intros field Hne Hnone. destruct (Hg field Hne). congruence.
  - intros i field st Hi Hne. unfold visit.
    assert ((len field =? 0) = false) as -> by (by destruct field).
    simpl. split; [|lia]. by apply count_resolved_insert, Hg.
Qed.

Lemma counter_counts_resolved_slots_witness :
  count_resolved (types (visit 1 "hello" None (first_state ["1"; ""])))
  = S (count_resolved (types (first_state ["1"; ""])))
  ∧ no_of_typed_columns (visit 1 "hello" None (first_state ["1"; ""]))
    = S (no_of_typed_columns (first_state ["1"; ""])).
Proof.
  apply (proj2 (proj2 (proj2 counter_counts_resolved_slots)) 1 "hello"
           (first_state ["1"; ""])).
  - reflexivity.
  - discriminate.
Defined.

(** ** Facts about [split], [sub] and [extract_file_name] *)

Section FileName.
Import Re ReFacts ReMore.

(** A pattern made of one set matches one character of the set. *)
Lemma match_at_one c s :
  match_at [one c] s
  = match s with
    | String a _ => if in_charset c a then Some (String a "") else None
    | EmptyString => None
    end.
Proof.
  unfold match_at. destruct s as [|a s]; [done|]. simpl.
  destruct (in_charset c a); simpl; [|done].
  destruct s as [|b s]; simpl; [done|]. by rewrite andb_false_r.
Qed.

Lemma split_one c s : ∀ piece,
  split_from [one c] 0 piece s = split_chars c piece s.
Proof.
  induction s as [|a s IH]; intros piece; cbn [split_from split_chars];
    rewrite match_at_one; [done|].
  destruct (in_charset c a); simpl; by rewrite IH.
Qed.

Lemma sub_one c repl s : sub_from [one c] repl 0 s = sub_chars c repl s.
Proof.
  induction s as [|a s IH]; cbn [sub_from sub_chars]; rewrite match_at_one;
    [done|].
  destruct (in_charset c a); simpl; by rewrite IH.
Qed.

Lemma chars_app s1 s2 : chars (s1 +:+ s2) = chars s1 ++ chars s2.
Proof.
  induction s1 as [|a s1 IH]; [done|]. rewrite app_cons. simpl. by f_equal.
Qed.

Lemma free_of_app c s1 s2 :
  free_of c (s1 +:+ s2) ↔ free_of c s1 ∧ free_of c s2.
Proof. unfold free_of. rewrite chars_app. apply Forall_app. Qed.

(** *** Splitting *)

Lemma split_chars_free c s : ∀ piece,
  free_of c s → split_chars c piece s = [piece +:+ s].
Proof.
  induction s as [|a s IH]; intros piece Hs; simpl.
  - by rewrite app_empty_r.
  - apply Forall_cons in Hs as [-> Hs]. rewrite IH by done.
    by rewrite app_assoc_str.
Qed.

Lemma split_chars_sep c a x y : ∀ piece,
  in_charset c a = true →
  split_chars c piece (x +:+ String a y)
  = split_chars c piece x ++ split_chars c "" y.
Proof.
  intros piece Ha. revert piece.
  induction x as [|b x IH]; intros piece.
  - change ("" +:+ String a y) with (String a y). simpl. by rewrite Ha.
  - rewrite app_cons. simpl. destruct (in_charset c b); [|done].
    by rewrite IH.
Qed.

Lemma split_chars_length c s : ∀ piece,
  length (split_chars c piece s)
  = S (length (filter (λ a, in_charset c a = true) (chars s))).
Proof.
  induction s as [|a s IH]; intros piece; simpl; [done|].
  destruct (in_charset c a) eqn:Ha.
  - rewrite filter_cons_True by done. simpl. by rewrite IH.
  - rewrite filter_cons_False by congruence. apply IH.
Qed.

Lemma split_chars_nonempty c s piece : split_chars c piece s ≠ [].
Proof.
  intros H. pose proof (split_chars_length c s piece) as Hl.
  by rewrite H in Hl.
Qed.

Lemma split_chars_single c s : ∀ piece,
  length (split_chars c piece s) < 2 ↔ free_of c s.
Proof.
  unfold free_of. induction s as [|a s IH]; intros piece; simpl.
  - split; [constructor|lia].
  - rewrite Forall_cons. destruct (in_charset c a) eqn:Ha.
    + pose proof (split_chars_length c s "") as Hl. simpl. split; [lia|].
      by intros [? _].
    + rewrite IH. tauto.
Qed.

Lemma free_of_path_separator s :
  free_of path_separator s ↔ ("/"%char ∉ chars s) ∧ ("."%char ∉ chars s).
Proof.
  unfold free_of. rewrite Forall_forall. split.
  - intros H. split; intros Hin; apply H in Hin; vm_compute in Hin; done.
  - intros [Hs Hd] a Ha. unfold path_separator. simpl.
    apply bool_decide_eq_false. rewrite !elem_of_cons, elem_of_nil.
    intros [->|[->|[]]]; done.
Qed.

(** *** Substituting *)

Lemma in_non_alnum a : in_charset non_alnum a = negb (is_alnum a).
Proof. destruct a as [[] [] [] [] [] [] [] []]; vm_compute; reflexivity. Qed.

Lemma sub_chars_sanitize s : sub_chars non_alnum "_" s = sanitize s.
Proof.
  induction s as [|a s IH]; cbn [sub_chars sanitize]; [done|].
  rewrite in_non_alnum, IH. by destruct (is_alnum a).
Qed.

Lemma sanitize_chars s :
  Forall (λ a, is_alnum a = true ∨ a = "_"%char) (chars (sanitize s)).
Proof.
  induction s as [|a s IH]; simpl; constructor; [|done].
  destruct (is_alnum a) eqn:Ha; auto.
Qed.

Lemma sanitize_len s : len (sanitize s) = len s.
Proof. induction s as [|a s IH]; simpl; [done|]. by f_equal. Qed.

(** *** The function *)

Lemma extract_file_name_eq path :
  extract_file_name path
  = let parts := split_chars path_separator "" path in
    if length parts <? 2 then Failed IndexError
    else match parts !! (length parts - 2) with
         | Some part => Done (sanitize part)
         | None => Failed IndexError
         end.
Proof.
  unfold extract_file_name, split, sub. rewrite split_one. simpl.
  destruct (_ <? 2); [done|].
  destruct (_ !! _); [|done]. by rewrite sub_one, sub_chars_sanitize.
Qed.

End FileName.

(** ** Properties of [extract_file_name] *)

Lemma file_name_IndexError path :
  ("/"%char ∉ chars path) ∧ ("."%char ∉ chars path) →
  extract_file_name path = Failed IndexError.
Proof.
  rewrite <-free_of_path_separator, <-(split_chars_single _ _ "").
  rewrite extract_file_name_eq. cbn zeta. intros Hlt%Nat.ltb_lt.
  by rewrite Hlt.
Qed.

(** X1. [extract_file_name] raises [IndexError] exactly on the paths that
    hold neither a slash nor a dot: they split into a single piece, which
    has no last-but-one element. *)
Theorem extract_file_name_IndexError path :
  extract_file_name path = Failed IndexError
  ↔ ("/"%char ∉ chars path) ∧ ("."%char ∉ chars path).
Proof.
  rewrite <-free_of_path_separator, <-(split_chars_single _ _ "").
  rewrite extract_file_name_eq. cbn zeta.
  destruct (length _ <? 2) eqn:Hlt.
  - apply Nat.ltb_lt in Hlt. split; [lia|done].
  - apply Nat.ltb_ge in Hlt. split; [|lia].
    destruct (lookup_lt_is_Some_2 (split_chars path_separator "" path)
                (length (split_chars path_separator "" path) - 2))
      as [x ->]; [lia|done].
Qed.

(** X2. When the path ends in [stem b last], with [b] a slash or a dot
    and no slash or dot inside [stem] and [last], and [stem] starts the
    path or follows a slash or a dot, the name extracted is [stem] with
    every character outside [A-Za-z0-9] turned into an underscore.  So
    "dir/my-file.csv" gives "my_file", and a path without extension such
    as "/tmp/data" gives the directory, "tmp". *)
Theorem extract_file_name_stem stem b last :
  b ∈ ["/"; "."]%char →
  free_of path_separator stem → free_of path_separator last →
  extract_file_name (stem +:+ String b last) = Done (sanitize stem)
  ∧ ∀ pre a,
      a ∈ ["/"; "."]%char →
      extract_file_name (pre +:+ String a (stem +:+ String b last))
      = Done (sanitize stem).
Proof.
  intros Hb Hstem Hlast.
  assert (Hsep : ∀ x, x ∈ ["/"; "."]%char →
                      Re.in_charset path_separator x = true).
  { intros x Hx. by apply bool_decide_eq_true. }
  split; [|intros pre a Ha]; rewrite extract_file_name_eq; cbn zeta;
    rewrite !split_chars_sep, (split_chars_free _ stem),
      (split_chars_free _ last) by auto;
    change ("" +:+ stem) with stem; change ("" +:+ last) with last;
    [done|].
  rewrite !length_app. simpl.
  replace (_ <? 2) with false by (symmetry; apply Nat.ltb_ge; lia).
  rewrite lookup_app_r by lia.
  by replace (_ - _) with 0 by lia.
Qed.

Lemma extract_file_name_stem_witness :
  extract_file_name "dir/my-file.csv" = Done "my_file".
Proof.
  apply (proj2 (extract_file_name_stem "my-file" "."%char "csv"
                  ltac:(repeat constructor) ltac:(repeat constructor)
                  ltac:(repeat constructor)) "dir" "/"%char).
  repeat constructor.
Defined.

(** X3. Whatever the path, a name that [extract_file_name] returns is
    made of ASCII letters, digits and underscores only. *)
Theorem extract_file_name_safe path name :
  extract_file_name path = Done name →
  Forall (λ a, is_alnum a = true ∨ a = "_"%char) (chars name).
Proof.
  rewrite extract_file_name_eq. cbn zeta.
  destruct (_ <? 2); [done|]. destruct (_ !! _); [|done].
  intros [= <-]. apply sanitize_chars.
Qed.

Lemma extract_file_name_safe_witness :
  Forall (λ a, is_alnum a = true ∨ a = "_"%char) (chars "my_file").
Proof.
  apply (extract_file_name_safe "data/my file.csv"). reflexivity.
Defined.

(** ** Facts about [csv_to_db] *)

Section Load.
Implicit Types (w : world) (history : list call).

(** *** What the prediction leaves in the file *)

Lemma for_rows_from rows : ∀ seen st,
  for_rows rows seen st
  = ((for_rows rows [] st).1,
     Iterator (pending (for_rows rows [] st).2)
              (seen ++ delivered (for_rows rows [] st).2)).
Proof.
  induction rows as [|row rest IH]; intros seen st; simpl.
  - by rewrite app_nil_r.
  - destruct (no_of_typed_columns st =? length row); simpl; [done|].
    rewrite (IH (seen ++ [row])), (IH [row]). simpl. by rewrite <-app_assoc.
Qed.

Lemma predict_from rows seen :
  predict_column_types (Iterator rows seen)
  = ((predict_column_types (iter rows)).1,
     Iterator (pending (predict_column_types (iter rows)).2)
              (seen ++ delivered (predict_column_types (iter rows)).2)).
Proof.
  destruct rows as [|row rest]; simpl.
  - unfold predict_column_types. simpl. by rewrite app_nil_r.
  - unfold iter. rewrite !predict_cons. simpl.
    rewrite (for_rows_from rest (seen ++ [row])), (for_rows_from rest [row]).
    simpl. by rewrite <-app_assoc.
Qed.

Lemma predict_pending rows :
  pending (predict_column_types (iter rows)).2 = drop (pulled rows) rows.
Proof.
  unfold pulled. destruct rows as [|row rest]; [done|].
  unfold iter. rewrite predict_cons. simpl.
  destruct (for_rows_stream rest [row] (first_state row)) as (k & Hk & ->).
  simpl. rewrite length_take. by replace (k `min` length rest) with k by lia.
Qed.

Lemma pulled_bounds rows : rows ≠ [] → 1 ≤ pulled rows ≤ length rows.
Proof.
  unfold pulled. destruct rows as [|row rest]; [done|]. intros _.
  unfold iter. rewrite predict_cons. simpl.
  destruct (for_rows_stream rest [row] (first_state row)) as (k & Hk & ->).
  simpl. rewrite length_take. lia.
Qed.

(** *** The insertion loop *)

Lemma insert_rows_history w text rows : ∀ n history,
  ∃ j, j ≤ length rows
    ∧ (insert_rows w text rows n history).2
      = history ++ ((λ row, Execute text (Some (row_data row))) <$> take j rows)
    ∧ ((insert_rows w text rows n history).1 = Done (n + length rows)
       ∧ j = length rows
       ∨ ∃ message,
           (insert_rows w text rows n history).1
           = Failed (MariadbError message)).
Proof.
  induction rows as [|row rest IH]; intros n history; simpl.
  - exists 0. rewrite app_nil_r, Nat.add_0_r. split_and!; auto.
  - unfold mbind, M_bind, db_call.
    destruct (db_error w history _) as [message|]; simpl.
    + exists 1. simpl. split_and!; [lia|done|eauto].
    + destruct (IH (n + 1) (history ++ [Execute text (Some (row_data row))]))
        as (j & Hj & -> & Hres).
      exists (S j). rewrite <-app_assoc. split_and!; [lia|done|].
      destruct Hres as [[-> ->]|[message ->]]; [left|eauto].
      split; [f_equal; lia|done].
Qed.

(** *** Histories *)

Lemma bind_run {A B} (m : M A) (f : A → M B) history :
  (m ≫= f) history
  = match m history with
    | (Done a, history') => f a history'
    | (Failed e, history') => (Failed e, history')
    end.
Proof. reflexivity. Qed.

Lemma sent_app history1 history2 :
  sent (history1 ++ history2) = sent history1 ++ sent history2.
Proof. apply omap_app. Qed.

Lemma executed_app history1 history2 :
  executed (history1 ++ history2) = executed history1 ++ executed history2.
Proof. apply omap_app. Qed.

Lemma committed_app history1 history2 :
  committed (history1 ++ history2)
  = committed history1 || committed history2.
Proof. apply existsb_app. Qed.

Lemma sent_inserts text (rows : list row) :
  sent ((λ row, Execute text (Some (row_data row))) <$> rows)
  = row_data <$> rows.
Proof. induction rows as [|row rows IH]; simpl; [done|]. by f_equal. Qed.

Lemma executed_inserts text (rows : list row) :
  executed ((λ row, Execute text (Some (row_data row))) <$> rows)
  = replicate (length rows) text.
Proof. induction rows as [|row rows IH]; simpl; [done|]. by f_equal. Qed.

Lemma committed_inserts text (rows : list row) :
  committed ((λ row, Execute text (Some (row_data row))) <$> rows) = false.
Proof. by induction rows. Qed.

(** *** The table *)

Ltac run_step :=
  match goal with
  | |- context [db_error ?w ?h ?c] => destruct (db_error w h c)
  | |- context [extract_file_name ?p] => destruct (extract_file_name p)
  | |- context [match ?t with Some _ => _ | None => _ end] =>
      is_var t; destruct t
  | |- context [if ?b then _ else _] => is_var b; destruct b
  end;
  cbn -[table_creation insertion extract_file_name insert_rows].

Ltac run_all :=
  unfold mbind, M_bind, print, getpass, db_call, raise, mret, M_ret;
  cbn -[table_creation insertion extract_file_name insert_rows];
  repeat run_step.

(** Creating the table sends no row and commits nothing. *)
Lemma create_table_quiet w path db table_name drop keep names tys history :
  sent (create_table w path db table_name drop keep names tys history).2
  = sent history
  ∧ committed (create_table w path db table_name drop keep names tys
                 history).2
    = committed history.
Proof.
  unfold create_table. run_all;
    rewrite ?sent_app, ?committed_app; simpl;
    rewrite ?app_nil_r, ?orb_false_r; done.
Qed.

(** *** The rows *)

Lemma insert_file_sent w table names rows seen history :
  ∃ j, j ≤ length (drop 1 rows)
    ∧ sent (insert_file w table names (Iterator rows seen) history).2
      = sent history ++ (row_data <$> take j (drop 1 rows))
    ∧ (committed (insert_file w table names (Iterator rows seen) history).2
       = true →
       committed history = true ∨ j = length (drop 1 rows))
    ∧ ((insert_file w table names (Iterator rows seen) history).1 = Done () →
       j = length (drop 1 rows)
       ∧ committed (insert_file w table names (Iterator rows seen)
                      history).2 = true).
Proof.
  unfold insert_file. destruct rows as [|row rest]; simpl.
  - exists 0. rewrite app_nil_r. unfold raise. simpl. split_and!; auto; done.
  - rewrite drop_0.
    unfold mbind, M_bind, print, db_call, mret, M_ret.
    cbn -[insertion insert_rows].
    destruct (insert_rows_history w (insertion table names) rest 0
                (history ++ [Print ("Inserting CSV data into `" +:+ table
                                    +:+ "`")]))
      as (j & Hj & Hh & Hres).
    destruct (insert_rows _ _ _ _ _) as [o history'].
    simpl in Hh, Hres. subst history'. exists j. split; [done|].
    destruct Hres as [[-> ->]|[message ->]].
    + rewrite firstn_all. run_all;
        rewrite ?sent_app, ?committed_app, ?sent_inserts, ?committed_inserts;
        simpl; rewrite ?app_nil_r, ?orb_false_r, ?orb_true_r;
        split_and!; auto; try done.
    + cbn [fst snd].
      rewrite !sent_app, !committed_app, sent_inserts, committed_inserts.
      simpl. rewrite app_nil_r, !orb_false_r. split_and!; auto; done.
Qed.

(** *** The whole function *)

Lemma csv_to_db_sent w names data path host port user db table_name
    drop_exists keep :
  ∃ j, j ≤ length (drop (S (pulled data)) data)
    ∧ sent (csv_to_db w (names :: data) path host port user db table_name
              drop_exists keep []).2
      = row_data <$> take j (drop (S (pulled data)) data)
    ∧ (committed (csv_to_db w (names :: data) path host port user db
                    table_name drop_exists keep []).2 = true →
       j = length (drop (S (pulled data)) data)).
Proof.
  unfold csv_to_db.
  unfold mbind, M_bind, print, getpass, get_db_connection, raise, mret, M_ret.
  cbn [next iter pending delivered app].
  rewrite predict_from, predict_pending.
  destruct (predict_column_types (iter data)).1 as [column_types|e];
    cbn -[create_table insert_file]; [|exists 0; split_and!; [lia|done..]].
  destruct (db_error w _ _) as [err|]; cbn -[create_table insert_file];
    [exists 0; split_and!; [lia|done..]|].
  match goal with |- context [create_table ?a ?b ?c ?d ?e ?f ?g ?h ?i] =>
    pose proof (create_table_quiet a b c d e f g h i) as [Hs Hc];
    destruct (create_table a b c d e f g h i) as [[table|f'] history1]
  end; cbn [fst snd] in *;
    [|exists 0; split_and!; [lia|done|simpl in Hc; congruence]].
  match goal with |- context [insert_file ?a ?b ?c (Iterator ?r ?s) ?h] =>
    destruct (insert_file_sent a b c r s h) as (j & Hj & Hsent & Hcom & _);
    destruct (insert_file a b c (Iterator r s) h) as [[[]|f'] history2]
  end; cbn [fst snd] in *; rewrite drop_drop, Hs, Hc in *;
    replace (pulled data + 1) with (S (pulled data)) in * by lia;
    exists j; rewrite ?sent_app, ?committed_app, Hsent; simpl;
    rewrite ?app_nil_r, ?orb_false_r; split_and!; auto; intros [|]%Hcom; done.
Qed.

Lemma insert_rows_calm password text rows : ∀ n history,
  insert_rows (calm password) text rows n history
  = (Done (n + length rows),
     history ++ ((λ row, Execute text (Some (row_data row))) <$> rows)).
Proof.
  induction rows as [|row rest IH]; intros n history; simpl.
  - by rewrite app_nil_r, Nat.add_0_r.
  - rewrite bind_run. unfold db_call. simpl. rewrite IH, <-app_assoc. simpl.
    do 2 f_equal. lia.
Qed.

(** *** How many rows the prediction pulls *)

Lemma pulled_cons row rest :
  pulled (row :: rest)
  = length (delivered (for_rows rest [row] (first_state row)).2).
Proof. unfold pulled, iter. by rewrite predict_cons. Qed.

Lemma pulled_two row row2 rest :
  Forall (λ field : string, field ≠ "") row →
  length row2 = length row →
  pulled (row :: row2 :: rest) = 2.
Proof.
  intros Hrow Hlen. rewrite pulled_cons. simpl.
  by rewrite count_typed_all, Hlen, Nat.eqb_refl.
Qed.

Lemma for_rows_open j rows : ∀ seen st,
  uniform (length (types st)) rows → counted st →
  types st !! j = Some None → first_nonempty j rows = None →
  (for_rows rows seen st).2 = Iterator [] (seen ++ rows).
Proof.
  induction rows as [|row rest IH]; intros seen st Hu Hc Hj Hnone; simpl.
  - by rewrite app_nil_r.
  - apply Forall_cons in Hu as [Hrow Hu].
    destruct (no_of_typed_columns st =? length row) eqn:Hn.
    + apply Nat.eqb_eq in Hn. destruct (count_resolved_full (types st) j);
        [unfold counted in Hc; congruence|done].
    + rewrite IH, <-app_assoc; [done|..].
      * by rewrite scan_row_length.
      * by apply scan_row_counted.
      * rewrite scan_row_open by done. simpl in Hnone.
        destruct (row !! j) as [field|]; simpl; [|done].
        destruct (len field =? 0) eqn:Hl; [|done].
        apply Nat.eqb_eq in Hl. by rewrite guess_sql_type_empty.
      * simpl in Hnone. destruct (row !! j) as [field|]; [|done].
        by destruct (len field =? 0).
Qed.

Lemma pulled_all n rows j :
  uniform n rows → j < n → first_nonempty j rows = None →
  pulled rows = length rows.
Proof.
  intros Hu Hj Hnone. destruct rows as [|row rest]; [done|].
  apply Forall_cons in Hu as [Hrow Hu]. rewrite pulled_cons.
  rewrite <-Hrow in Hj. apply lookup_lt_is_Some in Hj as [field Hf].
  simpl in Hnone. rewrite Hf in Hnone.
  destruct (len field =? 0) eqn:Hl; [|done]. apply Nat.eqb_eq in Hl.
  rewrite (for_rows_open j); simpl; [done|..|done].
  - by rewrite length_fmap, Hrow.
  - apply first_state_counted.
  - rewrite list_lookup_fmap, Hf. simpl. by rewrite guess_sql_type_empty.
Qed.

(** When the prediction has pulled every row, the second reader finds
    nothing to skip: no commit, and no normal return after a statement. *)
Lemma csv_to_db_exhausted w names data path host port user db table_name
    drop_exists keep :
  drop (pulled data) data = [] →
  committed (csv_to_db w (names :: data) path host port user db table_name
               drop_exists keep []).2 = false
  ∧ ((csv_to_db w (names :: data) path host port user db table_name
        drop_exists keep []).1 = Done () →
     executed (csv_to_db w (names :: data) path host port user db table_name
                 drop_exists keep []).2 = []).
Proof.
  intros Hnone. unfold csv_to_db.
  unfold mbind, M_bind, print, getpass, get_db_connection, raise, mret, M_ret.
  cbn [next iter pending delivered app].
  rewrite predict_from, predict_pending, Hnone.
  destruct (predict_column_types (iter data)).1 as [column_types|e];
    cbn -[create_table]; [|done].
  destruct (db_error w _ _) as [err|]; cbn -[create_table]; [done|].
  match goal with |- context [create_table ?a ?b ?c ?d ?e ?f ?g ?h ?i] =>
    pose proof (create_table_quiet a b c d e f g h i) as [_ Hc];
    destruct (create_table a b c d e f g h i) as [[table|f'] history1]
  end; cbn [fst snd] in *; simpl in Hc; done.
Qed.

Lemma csv_to_db_calm password names data column_types skipped rest path host
    port user db table_name name drop_exists keep :
  (predict_column_types (iter data)).1 = Return column_types →
  drop (pulled data) data = skipped :: rest →
  match table_name with
  | Some given => Done given
  | None => extract_file_name path
  end = Done name →
  csv_to_db (calm password) (names :: data) path host port user db table_name
            drop_exists keep []
  = (Done (),
     [Print ""; Print "Loading CSV";
      Print "Collecting column names and types";
      GetPass "MariaDB password:"; Connect host port user password;
      Print ("Connected to MariaDB as `" +:+ str user +:+ "`@`" +:+ str host
             +:+ "`");
      Cursor;
      Execute ("CREATE DATABASE IF NOT EXISTS " +:+ str db +:+ ";") None]
     ++ (if drop_exists
         then [Execute ("DROP TABLE IF EXISTS " +:+ (str db +:+ "." +:+ name)
                        +:+ ";") None]
         else [])
     ++ [Execute (table_creation (str db +:+ "." +:+ name) keep names
                                 column_types) None;
         Print ("Inserting CSV data into `" +:+ (str db +:+ "." +:+ name)
                +:+ "`")]
     ++ ((λ row, Execute (insertion (str db +:+ "." +:+ name) names)
                         (Some (row_data row))) <$> rest)
     ++ [Print ("Inserted " +:+ str_nat (length rest) +:+ " records");
         Commit; Close; Print "CSV exported to MariaDB"]).
Proof.
  intros Htypes Hrows Hname. unfold csv_to_db.
  unfold mbind, M_bind, print, getpass, get_db_connection, raise, mret, M_ret.
  cbn [next iter pending delivered app].
  rewrite predict_from, predict_pending, Htypes, Hrows.
  unfold create_table, insert_file, db_call, mbind, M_bind, print, raise,
    mret, M_ret.
  cbn -[table_creation insertion extract_file_name insert_rows].
  destruct table_name as [given|];
    [injection Hname as ->|rewrite Hname];
    destruct drop_exists;
    cbn -[table_creation insertion extract_file_name insert_rows];
    rewrite insert_rows_calm; cbn -[table_creation insertion];
    by rewrite <-?app_assoc.
Qed.

End Load.

(** ** Stopping at the first error of the database *)

Section FailStop.
Implicit Types (w : world) (history : list call).

Lemma extract_file_name_failure path f :
  extract_file_name path = Failed f → f = IndexError.
Proof.
  unfold extract_file_name. destruct (_ <? 2); [congruence|].
  destruct (_ !! _); congruence.
Qed.

Ltac run_step_eq :=
  match goal with
  | |- context [db_error ?w ?h ?c] => destruct (db_error w h c) eqn:?
  | |- context [extract_file_name ?p] =>
      let H := fresh "Hname" in
      destruct (extract_file_name p) eqn:H;
      [|apply extract_file_name_failure in H; subst]
  | |- context [match ?t with Some _ => _ | None => _ end] =>
      is_var t; destruct t
  | |- context [if ?b then _ else _] => is_var b; destruct b
  end;
  cbn -[table_creation insertion extract_file_name insert_rows].

Ltac stopped :=
  intros H;
  first [ discriminate H
        | injection H as <-; eexists _, _; split; [reflexivity|eassumption] ].

Lemma create_table_stops w path db table_name drop_exists keep names tys
    history message :
  (create_table w path db table_name drop_exists keep names tys history).1
  = Failed (MariadbError message) →
  stopped_by w message
    (create_table w path db table_name drop_exists keep names tys history).2.
Proof.
  unfold create_table, stopped_by.
  unfold mbind, M_bind, print, getpass, db_call, raise, mret, M_ret.
  cbn -[table_creation insertion extract_file_name insert_rows].
  repeat run_step_eq; stopped.
Qed.

Lemma insert_rows_stops w text rows message : ∀ n history,
  (insert_rows w text rows n history).1 = Failed (MariadbError message) →
  stopped_by w message (insert_rows w text rows n history).2.
Proof.
  induction rows as [|row rest IH]; intros n history; simpl; [done|].
  rewrite bind_run. unfold db_call.
  destruct (db_error w history _) eqn:?; [unfold stopped_by; stopped|].
  apply IH.
Qed.

Lemma insert_file_stops w table names reader history message :
  (insert_file w table names reader history).1
  = Failed (MariadbError message) →
  stopped_by w message (insert_file w table names reader history).2.
Proof.
  unfold insert_file. destruct (next reader) as [[skipped|e] reader'];
    [|done].
  unfold mbind, M_bind, print, db_call, mret, M_ret.
  cbn -[insertion insert_rows].
  match goal with |- context [insert_rows ?a ?b ?c ?d ?e] =>
    pose proof (insert_rows_stops a b c message d e) as Hrows;
    destruct (insert_rows a b c d e) as [[n|f] history']
  end; cbn [fst snd] in *; [|intros [= ->]; by apply Hrows].
  unfold stopped_by. repeat run_step_eq; stopped.
Qed.

Lemma csv_to_db_stops w file path host port user db table_name drop_exists
    keep message :
  (csv_to_db w file path host port user db table_name drop_exists keep []).1
  = Failed (MariadbError message) →
  stopped_by w message
    (csv_to_db w file path host port user db table_name drop_exists keep []).2.
Proof.
  unfold csv_to_db.
  unfold mbind, M_bind, print, getpass, get_db_connection, raise, mret, M_ret.
  destruct (next (iter file)) as [[names|e] reader]; [|done].
  destruct (predict_column_types reader) as [[tys|e] reader']; [|done].
  cbn -[create_table insert_file].
  destruct (db_error w _ _) as [err|]; cbn -[create_table insert_file];
    [done|].
  match goal with |- context [create_table ?a ?b ?c ?d ?e ?f ?g ?h ?i] =>
    pose proof (create_table_stops a b c d e f g h i message) as Htable;
    destruct (create_table a b c d e f g h i) as [[table|f'] history1]
  end; cbn [fst snd] in *; [|intros [= ->]; by apply Htable].
  match goal with |- context [insert_file ?a ?b ?c ?d ?e] =>
    pose proof (insert_file_stops a b c d e message) as Hfile;
    destruct (insert_file a b c d e) as [[[]|f'] history2]
  end; cbn [fst snd] in *; [done|intros [= ->]; by apply Hfile].
Qed.

End FailStop.

(** ** Properties of [csv_to_db] *)

(** X4. On a file without rows, or with a header only, [csv_to_db] ends
    with [StopIteration] after its first three lines of output: no
    password is asked and the database is not contacted. *)
Theorem csv_to_db_no_data w file path host port user db table_name
    drop_exists keep :
  length file ≤ 1 →
  csv_to_db w file path host port user db table_name drop_exists keep []
  = (Failed (Uncaught StopIteration),
     [Print ""; Print "Loading CSV";
      Print "Collecting column names and types"]).
Proof. destruct file as [|names [|row rest]]; simpl; [done..|lia]. Qed.

Lemma csv_to_db_no_data_witness :
  csv_to_db (calm "pw") [["id"; "name"]] "people.csv" (Some "localhost") 3306
            (Some "me") (Some "db") None false false []
  = (Failed (Uncaught StopIteration),
     [Print ""; Print "Loading CSV";
      Print "Collecting column names and types"]).
Proof. apply csv_to_db_no_data. simpl. lia. Defined.

(** X5. When the connection is refused, [csv_to_db] prints the error and
    returns normally: after the [connect] call nothing is sent to the
    database, although the file has already been read for the types. *)
Theorem csv_to_db_connection_refused w names row rest path host port user db
    table_name drop_exists keep err :
  db_error w
    [Print ""; Print "Loading CSV"; Print "Collecting column names and types";
     GetPass "MariaDB password:"]
    (Connect host port user (typed w)) = Some err →
  csv_to_db w (names :: row :: rest) path host port user db table_name
            drop_exists keep []
  = (Done (),
     [Print ""; Print "Loading CSV"; Print "Collecting column names and types";
      GetPass "MariaDB password:"; Connect host port user (typed w);
      Print ("Error occurred while connecting MariaDB: " +:+ err)]).
Proof.
  intros Herr. unfold csv_to_db.
  unfold mbind, M_bind, print, getpass, get_db_connection, raise, mret, M_ret.
  cbn [next iter pending delivered app].
  rewrite predict_from. unfold iter. rewrite predict_cons. simpl.
  by rewrite Herr.
Qed.

Lemma csv_to_db_connection_refused_witness :
  csv_to_db (World "pw" (λ _ c, match c with
                                | Connect _ _ _ _ => Some "denied"
                                | _ => None
                                end))
            [["id"]; ["1"]; ["2"]] "t.csv" None 3306 None None None false false
            []
  = (Done (),
     [Print ""; Print "Loading CSV"; Print "Collecting column names and types";
      GetPass "MariaDB password:"; Connect None 3306 None "pw";
      Print "Error occurred while connecting MariaDB: denied"]).
Proof. by apply csv_to_db_connection_refused. Defined.

(** X6. The second reader goes on in the file where the prediction
    stopped, and one more row is skipped as if it were the header.  So,
    whatever the database does, the rows sent for insertion are, in
    order, an initial part of the data rows that follow the first
    [pulled data + 1]; once [commit] has been called they are all of
    those.  The prediction pulls at least one row, so the first two data
    rows are never inserted. *)
Theorem csv_to_db_rows_sent w names data path host port user db table_name
    drop_exists keep :
  sent (csv_to_db w (names :: data) path host port user db table_name
          drop_exists keep []).2
  `prefix_of` (row_data <$> drop (S (pulled data)) data)
  ∧ (committed (csv_to_db w (names :: data) path host port user db table_name
                  drop_exists keep []).2 = true →
     sent (csv_to_db w (names :: data) path host port user db table_name
             drop_exists keep []).2
     = row_data <$> drop (S (pulled data)) data)
  ∧ (data ≠ [] → 1 ≤ pulled data).
Proof.
  destruct (csv_to_db_sent w names data path host port user db table_name
              drop_exists keep) as (j & Hj & Hsent & Hcom).
  split_and!.
  - rewrite Hsent. rewrite fmap_take. apply prefix_take.
  - intros ->%Hcom. by rewrite Hsent, firstn_all.
  - intros Hne. by apply pulled_bounds.
Qed.

Lemma csv_to_db_rows_sent_witness :
  sent (csv_to_db (calm "pw")
          [["id"; "note"]; ["1"; ""]; ["2"; "hello"]; ["3"; "x"]; ["4"; "y"];
           ["5"; ""]]
          "notes.csv" (Some "localhost") 3306 (Some "me") (Some "db") None
          false false []).2
  = [[Some "5"; None]].
Proof.
  apply (proj1 (proj2 (csv_to_db_rows_sent (calm "pw") ["id"; "note"]
    [["1"; ""]; ["2"; "hello"]; ["3"; "x"]; ["4"; "y"]; ["5"; ""]]
    "notes.csv" (Some "localhost") 3306 (Some "me") (Some "db") None
    false false))).
  reflexivity.
Defined.

(** X7. When the first data row has no empty field and the second has as
    many fields, the prediction pulls exactly those two rows.  The loader
    then skips the third, so the first three data rows are never
    inserted: what is sent is an initial part of the rows from the fourth
    on, and all of them once [commit] has been called. *)
Theorem csv_to_db_skips_three_rows w names row row2 rest path host port user
    db table_name drop_exists keep :
  Forall (λ field : string, field ≠ "") row →
  length row2 = length row →
  pulled (row :: row2 :: rest) = 2
  ∧ sent (csv_to_db w (names :: row :: row2 :: rest) path host port user db
            table_name drop_exists keep []).2
    `prefix_of` (row_data <$> drop 1 rest)
  ∧ (committed (csv_to_db w (names :: row :: row2 :: rest) path host port
                  user db table_name drop_exists keep []).2 = true →
     sent (csv_to_db w (names :: row :: row2 :: rest) path host port user db
             table_name drop_exists keep []).2
     = row_data <$> drop 1 rest).
Proof.
  intros Hrow Hlen.
  destruct (csv_to_db_sent w names (row :: row2 :: rest) path host port user
              db table_name drop_exists keep) as (j & Hj & Hsent & Hcom).
  rewrite (pulled_two row row2 rest Hrow Hlen) in *. simpl in Hj, Hsent, Hcom.
  split_and!; [done| |].
  - rewrite Hsent. rewrite fmap_take. apply prefix_take.
  - intros ->%Hcom. by rewrite Hsent, firstn_all.
Qed.

Lemma csv_to_db_skips_three_rows_witness :
  pulled [["1"; "a"]; ["2"; "b"]; ["3"; "c"]; ["4"; "d"]] = 2
  ∧ sent (csv_to_db (calm "pw")
            [["id"; "tag"]; ["1"; "a"]; ["2"; "b"]; ["3"; "c"]; ["4"; "d"]]
            "t.csv" None 3306 None (Some "db") (Some "t") false false []).2
    `prefix_of` (row_data <$> drop 1 [["3"; "c"]; ["4"; "d"]])
  ∧ (committed (csv_to_db (calm "pw")
            [["id"; "tag"]; ["1"; "a"]; ["2"; "b"]; ["3"; "c"]; ["4"; "d"]]
            "t.csv" None 3306 None (Some "db") (Some "t") false false []).2
     = true →
     sent (csv_to_db (calm "pw")
            [["id"; "tag"]; ["1"; "a"]; ["2"; "b"]; ["3"; "c"]; ["4"; "d"]]
            "t.csv" None 3306 None (Some "db") (Some "t") false false []).2
     = row_data <$> drop 1 [["3"; "c"]; ["4"; "d"]]).
Proof.
  apply (csv_to_db_skips_three_rows (calm "pw") ["id"; "tag"] ["1"; "a"]
           ["2"; "b"] [["3"; "c"]; ["4"; "d"]]).
  - repeat constructor; discriminate.
  - reflexivity.
Defined.

(** X8. With rows of one length, a column without any non-empty value
    keeps the prediction reading to the end of the file.  Nothing is then
    left for the second reader: whatever the database does, no row is
    sent, [commit] is never called, and the function returns normally
    only when the connection was refused, before any statement. *)
Theorem csv_to_db_empty_column w names data n j path host port user db
    table_name drop_exists keep :
  uniform n data → j < n → first_nonempty j data = None →
  pulled data = length data
  ∧ sent (csv_to_db w (names :: data) path host port user db table_name
            drop_exists keep []).2 = []
  ∧ committed (csv_to_db w (names :: data) path host port user db table_name
                 drop_exists keep []).2 = false
  ∧ ((csv_to_db w (names :: data) path host port user db table_name
        drop_exists keep []).1 = Done () →
     executed (csv_to_db w (names :: data) path host port user db table_name
                 drop_exists keep []).2 = []).
Proof.
  intros Hu Hj Hnone. pose proof (pulled_all n data j Hu Hj Hnone) as Hall.
  destruct (csv_to_db_sent w names data path host port user db table_name
              drop_exists keep) as (k & Hk & Hsent & _).
  destruct (csv_to_db_exhausted w names data path host port user db table_name
              drop_exists keep) as [Hcom Hdone].
  { rewrite Hall. apply drop_all. }
  split_and!; [done| |done..].
  rewrite Hsent, Hall, drop_ge by lia. by rewrite take_nil.
Qed.

Lemma csv_to_db_empty_column_witness :
  pulled [["1"; ""]; ["2"; ""]; ["3"; ""]] = 3
  ∧ sent (csv_to_db (calm "pw") [["id"; "note"]; ["1"; ""]; ["2"; ""]; ["3"; ""]]
            "t.csv" None 3306 None (Some "db") (Some "t") false false []).2
    = []
  ∧ committed (csv_to_db (calm "pw")
                 [["id"; "note"]; ["1"; ""]; ["2"; ""]; ["3"; ""]]
                 "t.csv" None 3306 None (Some "db") (Some "t") false false
                 []).2 = false
  ∧ ((csv_to_db (calm "pw") [["id"; "note"]; ["1"; ""]; ["2"; ""]; ["3"; ""]]
        "t.csv" None 3306 None (Some "db") (Some "t") false false []).1
     = Done () →
     executed (csv_to_db (calm "pw")
                 [["id"; "note"]; ["1"; ""]; ["2"; ""]; ["3"; ""]]
                 "t.csv" None 3306 None (Some "db") (Some "t") false false
                 []).2 = []).
Proof.
  apply (csv_to_db_empty_column (calm "pw") ["id"; "note"]
           [["1"; ""]; ["2"; ""]; ["3"; ""]] 2 1).
  - repeat constructor.
  - lia.
  - reflexivity.
Defined.

(** X9. In a world where the database raises nothing, with a table name
    given or extracted from the path, and at least one row left after
    the prediction, the run is: the password prompt, [connect], the
    cursor, [CREATE DATABASE], [DROP TABLE] exactly when asked for and
    before [CREATE TABLE], one [INSERT] for each row left but the first,
    then [commit] and [close]. *)
Theorem csv_to_db_untroubled password names data column_types skipped rest
    path host port user db table_name name drop_exists keep :
  (predict_column_types (iter data)).1 = Return column_types →
  drop (pulled data) data = skipped :: rest →
  match table_name with
  | Some given => Done given
  | None => extract_file_name path
  end = Done name →
  csv_to_db (calm password) (names :: data) path host port user db table_name
            drop_exists keep []
  = (Done (),
     [Print ""; Print "Loading CSV";
      Print "Collecting column names and types";
      GetPass "MariaDB password:"; Connect host port user password;
      Print ("Connected to MariaDB as `" +:+ str user +:+ "`@`" +:+ str host
             +:+ "`");
      Cursor;
      Execute ("CREATE DATABASE IF NOT EXISTS " +:+ str db +:+ ";") None]
     ++ (if drop_exists
         then [Execute ("DROP TABLE IF EXISTS " +:+ (str db +:+ "." +:+ name)
                        +:+ ";") None]
         else [])
     ++ [Execute (table_creation (str db +:+ "." +:+ name) keep names
                                 column_types) None;
         Print ("Inserting CSV data into `" +:+ (str db +:+ "." +:+ name)
                +:+ "`")]
     ++ ((λ row, Execute (insertion (str db +:+ "." +:+ name) names)
                         (Some (row_data row))) <$> rest)
     ++ [Print ("Inserted " +:+ str_nat (length rest) +:+ " records");
         Commit; Close; Print "CSV exported to MariaDB"]).
Proof. apply csv_to_db_calm. Qed.

Lemma csv_to_db_untroubled_witness :
  (csv_to_db (calm "pw")
     [["id"; "tag"]; ["1"; "a"]; ["2"; "b"]; ["3"; "c"]; ["4"; "d"]]
     "data/my tags.csv" (Some "localhost") 3306 (Some "me") (Some "db") None
     true false []).1 = Done ().
Proof.
  rewrite (csv_to_db_untroubled "pw" ["id"; "tag"]
    [["1"; "a"]; ["2"; "b"]; ["3"; "c"]; ["4"; "d"]]
    [Some decimal; Some text] ["3"; "c"] [["4"; "d"]] "data/my tags.csv"
    (Some "localhost") 3306 (Some "me") (Some "db") None "my_tags" true
    false); reflexivity.
Defined.

(** X15. [csv_to_db] stops at the first error raised by the database
    after the connection: when it ends with a [mariadb.Error], the call
    that raised it is the last thing the function did, so nothing is
    executed, committed or printed after it. *)
Theorem csv_to_db_stops_at_error w file path host port user db table_name
    drop_exists keep message :
  (csv_to_db w file path host port user db table_name drop_exists keep []).1
  = Failed (MariadbError message) →
  ∃ before c,
    (csv_to_db w file path host port user db table_name drop_exists keep []).2
    = before ++ [c]
    ∧ db_error w before c = Some message.
Proof. apply csv_to_db_stops. Qed.

Lemma csv_to_db_stops_at_error_witness :
  ∃ before c,
    (csv_to_db (World "pw" (λ _ c, match c with
                                   | Execute _ (Some _) => Some "rejected"
                                   | _ => None
                                   end))
       [["id"]; ["1"]; ["2"]; ["3"]; ["4"]; ["5"]] "t.csv" None 3306 None
       (Some "db") None false true []).2
    = before ++ [c]
    ∧ db_error (World "pw" (λ _ c, match c with
                                   | Execute _ (Some _) => Some "rejected"
                                   | _ => None
                                   end)) before c = Some "rejected".
Proof. by apply csv_to_db_stops_at_error. Defined.

(** X16. Without a table name, a path that holds neither a slash nor a
    dot makes [csv_to_db] end with [IndexError], and only after the
    database has been created: with a database that raises nothing, the
    last call made is the [CREATE DATABASE] statement. *)
Theorem csv_to_db_name_missing password names row rest path host port user db
    drop_exists keep :
  ("/"%char ∉ chars path) → ("."%char ∉ chars path) →
  csv_to_db (calm password) (names :: row :: rest) path host port user db
            None drop_exists keep []
  = (Failed IndexError,
     [Print ""; Print "Loading CSV";
      Print "Collecting column names and types";
      GetPass "MariaDB password:"; Connect host port user password;
      Print ("Connected to MariaDB as `" +:+ str user +:+ "`@`" +:+ str host
             +:+ "`");
      Cursor;
      Execute ("CREATE DATABASE IF NOT EXISTS " +:+ str db +:+ ";") None]).
Proof.
  intros Hslash Hdot.
  assert (Hname : extract_file_name path = Failed IndexError)
    by (by apply file_name_IndexError).
  unfold csv_to_db.
  unfold mbind, M_bind, print, getpass, get_db_connection, raise, mret, M_ret.
  cbn [next iter pending delivered app].
  rewrite predict_from. unfold iter at 1. rewrite predict_cons.
  unfold create_table, db_call, mbind, M_bind, raise, mret, M_ret.
  cbn -[extract_file_name]. by rewrite Hname.
Qed.

Lemma csv_to_db_name_missing_witness :
  (csv_to_db (calm "pw") [["id"]; ["1"]; ["2"]] "people" None 3306 None
             (Some "db") None false false []).1
  = Failed IndexError.
Proof.
  rewrite (csv_to_db_name_missing "pw" ["id"] ["1"] [["2"]] "people").
  - reflexivity.
  - by apply (bool_decide_unpack _).
  - by apply (bool_decide_unpack _).
Defined.

(** ** The statements *)

Section Statements.
Import Re ReFacts ReMore.

(** The text built by the loop of lines 103-104. *)
Lemma table_loop_text (columns : list (string * option string)) : ∀ start,
  foldl (λ text '(column, type),
           text +:+ column +:+ " " +:+ str type +:+ "," +:+ nl)
        start columns
  = match columns with
    | [] => start
    | _ => (start
            +:+ join ("," +:+ nl)
                  ((λ '(column, type), column +:+ " " +:+ str type)
                     <$> columns))
           +:+ "," +:+ nl
    end.
Proof.
  induction columns as [|[column type] rest IH]; intros start; [done|].
  cbn [foldl]. rewrite IH. destruct rest as [|next rest]; simpl.
  - by rewrite !app_assoc_str.
  - destruct next as [column' type']. by rewrite !app_assoc_str.
Qed.

Lemma sub_chars_app c repl s1 s2 :
  sub_chars c repl (s1 +:+ s2)
  = sub_chars c repl s1 +:+ sub_chars c repl s2.
Proof.
  induction s1 as [|a s1 IH]; [done|]. rewrite app_cons. simpl.
  destruct (in_charset c a); rewrite IH; [by rewrite app_assoc_str|done].
Qed.

Lemma unquote_marks (names : list string) :
  sub_chars (OneOf ["'"%char]) "" (join ", " ((λ _, "'?'") <$> names))
  = join ", " (replicate (length names) "?").
Proof.
  induction names as [|name [|name' rest] IH]; [done..|].
  change (join ", " ((λ _, "'?'") <$> name :: name' :: rest))
    with ("'?'" +:+ ", " +:+ join ", " ((λ _, "'?'") <$> name' :: rest)).
  change (join ", " (replicate (length (name :: name' :: rest)) "?"))
    with ("?" +:+ ", "
          +:+ join ", " (replicate (length (name' :: rest)) "?")).
  by rewrite !sub_chars_app, IH.
Qed.

End Statements.

(** X10. The [CREATE TABLE] statement lists one definition [name type]
    for each pair of a column name and a type, as many as the shorter of
    the two lists, joined by a comma and a line feed; the comma after the
    last one is cut.  An unresolved type is written [None].  With no pair
    at all the cut takes the opening bracket instead, which leaves a
    statement without a column list. *)
Theorem table_creation_text table keep names tys :
  table_creation table keep names tys
  = match zip names tys with
    | [] =>
        "CREATE TABLE " +:+ (if keep then " IF NOT EXISTS " else "") +:+ " "
        +:+ table +:+ nl +:+ ");"
    | columns =>
        "CREATE TABLE " +:+ (if keep then " IF NOT EXISTS " else "") +:+ " "
        +:+ table +:+ " ("
        +:+ join ("," +:+ nl)
              ((λ '(column, type), column +:+ " " +:+ str type) <$> columns)
        +:+ nl +:+ ");"
    end
  ∧ length (zip names tys) = length names `min` length tys
  ∧ str None = "None".
Proof.
  split_and!; [|apply length_zip_with|done].
  unfold table_creation. cbn zeta. rewrite table_loop_text.
  destruct (zip names tys) as [|pair rest].
  - rewrite <-!ReFacts.app_assoc_str.
    rewrite ReFacts.len_app, Nat.add_sub.
    rewrite ReFacts.take_str_app. by rewrite !ReFacts.app_assoc_str.
  - set (body := join _ _).
    replace (len _ - 2) with
      (len (("CREATE TABLE " +:+ (if keep then " IF NOT EXISTS " else "")
             +:+ " " +:+ table +:+ " (") +:+ body)).
    + rewrite ReFacts.take_str_app. by rewrite !ReFacts.app_assoc_str.
    + rewrite (ReFacts.len_app (_ +:+ body)). simpl. lia.
Qed.

(** X11. The [INSERT] statement carries one question mark for each column
    name, separated by a comma and a space.  With a single column the
    tuple's closing comma stays, and the statement reads [VALUES (?,);]. *)
Theorem insertion_text table names :
  insertion table names
  = "INSERT INTO " +:+ table +:+ " VALUES (" +:+
    join ", " (replicate (length names) "?") +:+
    (if length names =? 1 then "," else "") +:+ ");".
Proof.
  unfold insertion, ReMore.sub, repr_tuple.
  rewrite sub_one, !sub_chars_app, unquote_marks, length_fmap.
  destruct (length names =? 1); by rewrite !ReFacts.app_assoc_str.
Qed.

(** X12. The type vector always has as many entries as the first row
    pulled, whatever the lengths of the rows after it: fields beyond that
    length are not looked at, and no slot is added or removed. *)
Theorem type_vector_follows_first_row row rest tys it' :
  predict_column_types (iter (row :: rest)) = (Return tys, it') →
  length tys = length row.
Proof.
  unfold iter. rewrite predict_cons. intros [= <- _].
  by rewrite for_rows_length, first_state_length.
Qed.

Lemma type_vector_follows_first_row_witness :
  length [Some decimal; Some text] = length ["1"; ""].
Proof.
  apply (type_vector_follows_first_row ["1"; ""]
           [["2"; "hello"; "more"]; ["3"]] [Some decimal; Some text]
           (Iterator [] [["1"; ""]; ["2"; "hello"; "more"]; ["3"]])).
  reflexivity.
Defined.

(** ** The order of the table *)

Section Order.
Import Re ReFacts.

Lemma nondigits_app s1 s2 : nondigits (s1 +:+ s2) = nondigits s1 + nondigits s2.
Proof.
  induction s1 as [|a s1 IH]; [done|]. rewrite app_cons. simpl. lia.
Qed.

Lemma nondigits_digits s : digits s → nondigits s = 0.
Proof.
  unfold digits. induction s as [|a s IH]; simpl; [done|].
  intros [-> Hs]%andb_prop. by rewrite IH.
Qed.

Lemma nondigits_separator s : separator_char s → nondigits s = 1.
Proof. by intros [-> | [-> | ->]]. Qed.

Lemma digits_head s : digits s → 1 ≤ len s →
  ∃ a s', s = String a s' ∧ is_digit a = true.
Proof.
  unfold digits. destruct s as [|a s]; simpl; [lia|].
  intros [Ha _]%andb_prop _. eauto.
Qed.

(** A string that starts with a digit carries no sign. *)
Lemma unsigned sg a s r :
  sign sg → sg +:+ r = String a s → is_digit a = true → sg = "".
Proof.
  intros [-> | [-> | ->]] Heq Ha; [done|..];
    rewrite app_cons in Heq; injection Heq as <- _; discriminate Ha.
Qed.

Lemma date_head n1 n2 n3 s :
  1 ≤ n1 → date_shape n1 n2 n3 s →
  nondigits s = 2 ∧ ∃ a s', s = String a s' ∧ is_digit a = true.
Proof.
  intros Hn (a & s1 & b & s2 & c & -> & [Ha Hla] & H1 & [Hb _] & H2 & [Hc _]).
  split.
  - rewrite !nondigits_app, (nondigits_digits a), (nondigits_digits b),
      (nondigits_digits c), (nondigits_separator s1),
      (nondigits_separator s2) by done.
    lia.
  - destruct (digits_head a Ha) as (x & a' & -> & Hx); [lia|].
    rewrite app_cons. eauto.
Qed.

Lemma date_not_integer n1 n2 n3 s :
  1 ≤ n1 → date_shape n1 n2 n3 s → signed_integer s → False.
Proof.
  intros Hn (Hcount & a & s' & Hs & Ha)%date_head; [|done].
  intros (sg & i & Hi & Hsg & [Hd _]).
  rewrite Hi in Hs. rewrite (unsigned _ _ _ _ Hsg Hs Ha) in Hi.
  change ("" +:+ i) with i in Hi. subst s.
  rewrite nondigits_digits in Hcount by done. lia.
Qed.

Lemma date_not_fraction n1 n2 n3 s :
  1 ≤ n1 → date_shape n1 n2 n3 s → signed_fraction s → False.
Proof.
  intros Hn (Hcount & a & s' & Hs & Ha)%date_head; [|done].
  intros (sg & i & f & Hi & Hsg & [Hd _] & [Hf _]).
  rewrite Hi in Hs. rewrite (unsigned _ _ _ _ Hsg Hs Ha) in Hi.
  change ("" +:+ i +:+ "." +:+ f) with (i +:+ "." +:+ f) in Hi. subst s.
  rewrite !nondigits_app, (nondigits_digits i), (nondigits_digits f)
    in Hcount by done.
  simpl in Hcount. lia.
Qed.

(** Whatever patterns of the table match a field, they carry one type. *)
Lemma table_one_type field p t q u :
  (p, t) ∈ pattern_type_pairs → (q, u) ∈ pattern_type_pairs →
  full_match p field → full_match q field → t = u.
Proof.
  unfold pattern_type_pairs. intros Hp Hq.
  repeat (apply elem_of_cons in Hp as [Hp|Hp]; [injection Hp as -> ->|]);
    [..|by apply elem_of_nil in Hp];
    (repeat (apply elem_of_cons in Hq as [Hq|Hq]; [injection Hq as -> ->|]);
       [..|by apply elem_of_nil in Hq]);
    try done;
    rewrite ?date_shape_iff, ?signed_fraction_iff, ?signed_integer_iff;
    intros H1 H2; exfalso;
    first [ eapply date_not_integer; [|exact H1|exact H2]; lia
          | eapply date_not_integer; [|exact H2|exact H1]; lia
          | eapply date_not_fraction; [|exact H1|exact H2]; lia
          | eapply date_not_fraction; [|exact H2|exact H1]; lia ].
Qed.

(** What the loop over any well-formed table returns. *)
Lemma first_match_result pairs field :
  Forall well_formed pairs →
  (∃ p t, (p, t) ∈ pairs ∧ full_match p field
          ∧ first_match pairs field = Some t)
  ∨ ((∀ p t, (p, t) ∈ pairs → ¬ full_match p field)
     ∧ first_match pairs field = Some text).
Proof.
  induction pairs as [|[q u] pairs IH]; intros Hwf; simpl.
  - right. split; [|done]. intros p t Hin. by apply elem_of_nil in Hin.
  - apply Forall_cons in Hwf as [(Hsep & He & Hu) Hwf]. simpl in *.
    destruct (match_type q u field) as [u'|] eqn:Hq.
    + apply match_type_sound in Hq as [-> Hq]. left. exists q, u.
      split_and!; [left|done|by destruct u].
    + simpl. assert (Hno : ¬ full_match q field).
      { intros Hm. destruct (decide (field = "")) as [->|Hne].
        - apply match_here_complete in Hm; [|done]. simpl in Hm. congruence.
        - by rewrite match_type_complete in Hq. }
      destruct (IH Hwf) as [(p & t & Hin & Hm & Hr)|[Hmiss Hr]].
      * left. exists p, t. split_and!; [by right|done..].
      * right. split; [|done]. intros p t [[= -> ->]|Hin]%elem_of_cons; eauto.
Qed.

Lemma first_match_range pairs field t :
  first_match pairs field = Some t → t = text ∨ ∃ p, (p, t) ∈ pairs.
Proof.
  induction pairs as [|[q u] pairs IH]; simpl; [intros [= <-]; by left|].
  unfold match_type at 1 2.
  destruct (_ && _); simpl.
  - destruct u; simpl; [|intros [= <-]; right; eexists; left].
    intros [?|[p ?]]%IH; [by left|right; exists p; by right].
  - intros [?|[p ?]]%IH; [by left|right; exists p; by right].
Qed.

End Order.

(** X13. The order of the pattern table does not matter.  A date pattern
    and a number pattern never match the same field, so the patterns
    that match a field all carry one type, and the loop returns the same
    type for every reordering of the table. *)
Theorem table_order_is_irrelevant :
  (∀ field p t q u,
     (p, t) ∈ pattern_type_pairs → (q, u) ∈ pattern_type_pairs →
     Re.full_match p field → Re.full_match q field → t = u)
  ∧ (∀ pairs field,
       pairs ≡ₚ pattern_type_pairs →
       first_match pairs field = first_match pattern_type_pairs field).
Proof.
  split; [apply table_one_type|]. intros pairs field Hperm.
  assert (Hwf : Forall well_formed pairs)
    by (rewrite Hperm; apply table_well_formed).
  destruct (first_match_result pairs field Hwf)
    as [(p & t & Hin & Hm & ->)|[Hmiss ->]];
    destruct (first_match_result pattern_type_pairs field table_well_formed)
      as [(q & u & Hin' & Hm' & ->)|[Hmiss' ->]]; [|exfalso..|done].
  - f_equal. rewrite Hperm in Hin. by eapply table_one_type.
  - rewrite Hperm in Hin. by eapply Hmiss'.
  - rewrite <-Hperm in Hin'. by eapply Hmiss.
Qed.

Lemma table_order_is_irrelevant_witness :
  first_match (reverse pattern_type_pairs) "2024-01-05"
  = first_match pattern_type_pairs "2024-01-05".
Proof.
  apply (proj2 table_order_is_irrelevant). apply reverse_Permutation.
Defined.

(** X14. [guess_sql_type] returns nothing but [None] and the three type
    strings "date", "float(15)" and "varchar(50)". *)
Theorem guess_sql_type_range field :
  guess_sql_type field ∈ [None; Some date; Some decimal; Some text].
Proof.
  unfold guess_sql_type. destruct (len field =? 0); [left|].
  destruct (first_match pattern_type_pairs field) as [t|] eqn:Ht.
  - apply first_match_range in Ht as [-> | [p Hin]];
      [do 3 right; left|].
    unfold pattern_type_pairs in Hin.
    repeat (apply elem_of_cons in Hin as [Hin|Hin];
            [injection Hin as _ ->; first [by right; left
                                          | by do 2 right; left]|]).
    by apply elem_of_nil in Hin.
  - destruct (first_match_is_Some pattern_type_pairs field) as [t Ht'].
    congruence.
Qed.
